(** * Jeeves wake-word scripts: a shallow embedding and its properties

    The development embeds the two scripts of the repository,
    [scripts/wake_listener.py] (listener mode) and
    [scripts/wake_score_stdin.py] (scoring mode), as programs of a small
    state-and-exception monad over an explicit world: the chronological
    trace of environment interactions, the wall clock and the state of
    the output pipe.

    Numbers.  Python floats are modelled by rationals ([Q]).  Every
    finite float is a rational, and the comparisons the scripts perform
    ([>], [>=]) are exact on finite floats.  The sample conversion
    (int16 to float32, then division by 32768.0 = 2^15) is exact in
    float32, so [Q] is exact there as well.  NaN is not modelled.

    The subtraction [time.time() - last_wake] is taken exactly.  On
    float64 it decides [>= 2.5] as the exact one does in every state the
    listener reaches under a clock that does not run backwards:
    [last_wake] is then 0.0, where [now - 0.0] is [now], or a reading
    [s >= 2.5] with [now >= s]; there the difference is exact for
    [now <= 2 * s], and otherwise both it and its rounding exceed 2.5.

    The interpreter.  What CPython does around [main] is part of the
    model of a process: an uncaught exception ends it with a stack trace,
    and at shutdown stdout is flushed once more, which fails again when a
    [print] left a line in the buffer of a broken pipe. *)

From Stdlib Require Import ZArith QArith Qround Lqa Lia List String Bool.
From Stdlib.Strings Require Import Byte.
From stdpp Require Import base option list gmap strings pretty.
Import ListNotations.

Open Scope Q_scope.

(** ** Python exceptions *)

Inductive exn : Type :=
| SystemExit (code : Z)          (* raised by sys.exit; not an Exception *)
| KeyboardInterrupt              (* not an Exception *)
| BrokenPipeError
| ImportError (msg : string)
| ValueError (msg : string)
| IndexError (msg : string)
| RuntimeError (msg : string).   (* any other subclass of Exception *)

(** [isinstance(e, Exception)] *)
Definition is_Exception (e : exn) : bool :=
  match e with
  | SystemExit _ | KeyboardInterrupt => false
  | _ => true
  end.

(** [isinstance(e, ImportError)] *)
Definition is_ImportError (e : exn) : bool :=
  match e with ImportError _ => true | _ => false end.

(** [isinstance(e, (BrokenPipeError, KeyboardInterrupt))] *)
Definition is_interruption (e : exn) : bool :=
  match e with BrokenPipeError | KeyboardInterrupt => true | _ => false end.

(** [str(e)], as inlined by an f-string *)
Definition exn_str (e : exn) : string :=
  match e with
  | SystemExit c => "SystemExit"
  | KeyboardInterrupt => ""
  | BrokenPipeError => "[Errno 32] Broken pipe"
  | ImportError s | ValueError s | IndexError s | RuntimeError s => s
  end.

Inductive result (A : Type) : Type :=
| Ok (a : A)
| Raise (e : exn).
Arguments Ok {A} a.
Arguments Raise {A} e.

(** ** The world *)

(** A score map is the dict returned by [model.predict]. *)
Abbreviation ScoreMap := (gmap string Q).

(** One interaction with the environment. *)
Inductive event : Type :=
| EvRead (n : nat)                                   (* stdin.buffer.read returned n bytes *)
| EvPredict (frame : list Q) (r : result ScoreMap)   (* model.predict(frame) *)
| EvClock (t : Q)                                    (* time.time() returned t *)
| EvStdout (line : string)                           (* a line flushed to stdout *)
| EvStderr (line : string)                           (* a line the script wrote to stderr *)
| EvUnflushed (line : string)                        (* a line left in the buffer of stdout: the pipe is broken *)
| EvIgnored (e : exn).                               (* the interpreter's "Exception ignored ..." on stderr at shutdown *)

(** [trace] is newest first. [clock n] is the reading of the n-th call of
    [time.time()]. [stdout_room] is the number of lines the consumer of
    stdout still accepts before the pipe breaks ([None]: it never breaks). *)
Record world : Type := mkWorld {
  trace : list event;
  ticks : nat;
  clock : nat -> Q;
  stdout_room : option nat
}.

Definition log (ev : event) (w : world) : world :=
  mkWorld (ev :: trace w) (ticks w) (clock w) (stdout_room w).

(** Lines of one channel, oldest first. [stderr_lines] are the lines the
    script itself wrote; what the interpreter adds to stderr (a stack
    trace, [EvIgnored]) is not among them. *)
Fixpoint stdout_lines (tr : list event) : list string :=
  match tr with
  | [] => []
  | EvStdout s :: r => stdout_lines r ++ [s]
  | _ :: r => stdout_lines r
  end.

Fixpoint stderr_lines (tr : list event) : list string :=
  match tr with
  | [] => []
  | EvStderr s :: r => stderr_lines r ++ [s]
  | _ :: r => stderr_lines r
  end.

(** Number of calls of [stdin.buffer.read] made so far. *)
Fixpoint reads_done (tr : list event) : nat :=
  match tr with
  | [] => 0
  | EvRead _ :: r => S (reads_done r)
  | _ :: r => reads_done r
  end.

(** Number of lines that a [print] left in the buffer of stdout. *)
Fixpoint unflushed (tr : list event) : nat :=
  match tr with
  | [] => 0
  | EvUnflushed _ :: r => S (unflushed r)
  | _ :: r => unflushed r
  end.

(** ** The monad: state passing over [world], with exceptions *)

Definition M (A : Type) : Type := world -> result A * world.

Definition ret {A} (a : A) : M A := fun w => (Ok a, w).

Definition raise {A} (e : exn) : M A := fun w => (Raise e, w).

Definition bind {A B} (c : M A) (k : A -> M B) : M B :=
  fun w => match c w with
           | (Ok a, w') => k a w'
           | (Raise e, w') => (Raise e, w')
           end.

Notation "x <- c ;; k" := (bind c (fun x => k))
  (at level 100, c at next level, right associativity).
Notation "c ;;; k" := (bind c (fun _ => k))
  (at level 100, right associativity).

Definition lift {A} (r : result A) : M A := fun w => (r, w).

(** [try: body / except <clauses>]: [handler e] is the body of the first
    clause that matches [e], if any. *)
Definition try_except {A} (body : M A) (handler : exn -> option (M A)) : M A :=
  fun w => match body w with
           | (Ok a, w') => (Ok a, w')
           | (Raise e, w') =>
               match handler e with
               | Some h => h w'
               | None => (Raise e, w')
               end
           end.

(** [sys.exit(code)] *)
Definition sys_exit {A} (code : Z) : M A := raise (SystemExit code).

(** [print(line, file=sys.stderr)] *)
Definition print_stderr (line : string) : M unit :=
  fun w => (Ok tt, log (EvStderr line) w).

(** The world after a line went out on stdout, [room] being what the
    consumer accepts from then on. *)
Definition emitted (line : string) (room : option nat) (w : world) : world :=
  mkWorld (EvStdout line :: trace w) (ticks w) (clock w) room.

(** [print(line, flush=True)]: on a broken pipe the flush raises and the
    line stays in the buffer. *)
Definition print_stdout (line : string) : M unit :=
  fun w => match stdout_room w with
           | Some O => (Raise BrokenPipeError, log (EvUnflushed line) w)
           | Some (S n) => (Ok tt, emitted line (Some n) w)
           | None => (Ok tt, emitted line None w)
           end.

(** The world after one reading of the clock. *)
Definition tick (w : world) : world :=
  mkWorld (EvClock (clock w (ticks w)) :: trace w) (S (ticks w)) (clock w)
          (stdout_room w).

(** [time.time()] *)
Definition time_time : M Q :=
  fun w => (Ok (clock w (ticks w)), tick w).

(** How a process ends: an exit status, or an uncaught exception, which
    the interpreter reports with a stack trace on stderr and a non-zero
    status. *)
Inductive termination : Type :=
| Exit (status : Z)
| Crash (e : exn).

(** How the script itself ends: by returning, by [sys.exit], or by an
    exception nobody caught. *)
Definition ending (r : result unit) : termination :=
  match r with
  | Ok _ => Exit 0
  | Raise (SystemExit c) => Exit c
  | Raise e => Crash e
  end.

(** The shutdown of the interpreter, for a process started in [w0]:
    stdout is flushed again. When the process left a line in the buffer
    of a broken pipe the flush fails again, the interpreter writes
    "Exception ignored ... BrokenPipeError" to stderr, and an exit status
    becomes 120. *)
Definition shutdown (w0 : world) (tw : termination * world) : termination * world :=
  if (unflushed (trace w0) <? unflushed (trace (snd tw)))%nat
  then (match fst tw with Exit _ => Exit 120 | Crash e => Crash e end,
        log (EvIgnored BrokenPipeError) (snd tw))
  else tw.

Definition run_process (p : M unit) (w : world) : termination * world :=
  shutdown w (let '(r, w') := p w in (ending r, w')).

(** ** Sample Converter *)

(** [chunk_bytes = 2560] *)
Definition chunk_bytes : nat := 2560.

(** One little-endian signed 16-bit sample. *)
Definition int16_le (lo hi : Byte.byte) : Z :=
  let u := (Z.of_N (Byte.to_N lo) + 256 * Z.of_N (Byte.to_N hi))%Z in
  if (u <? 32768)%Z then u else (u - 65536)%Z.

Fixpoint int16_pairs (raw : list Byte.byte) : list Z :=
  match raw with
  | lo :: hi :: rest => int16_le lo hi :: int16_pairs rest
  | _ => []
  end.

(** [np.frombuffer(raw, dtype=np.int16)]: fails when the buffer size is
    not a multiple of the element size. *)
Definition np_frombuffer_int16 (raw : list Byte.byte) : result (list Z) :=
  if Nat.even (length raw) then Ok (int16_pairs raw)
  else Raise (ValueError "buffer size must be a multiple of element size").

(** [samples.astype(np.float32) / 32768.0] *)
Definition normalize (samples : list Z) : list Q :=
  map (fun s => inject_Z s / 32768) samples.

(** [pred.get(name, 0.0)] *)
Definition dict_get (pred : ScoreMap) (name : string) (dflt : Q) : Q :=
  default dflt (pred !! name).

(** [x < y] on floats *)
Definition Qltb (x y : Q) : bool := negb (Qle_bool y x).

(** ** Frame Reader *)

(** The outcome of one call of [sys.stdin.buffer.read(chunk_bytes)]. When
    the list of outcomes is used up, the stream is at its end and [read]
    returns [b""]. *)
Definition read_event : Type := result (list Byte.byte).

(** What a blocking buffered reader returns, call after call, on a finite
    byte stream: blocks of [n] bytes, then what is left. *)
Fixpoint chunks_fuel (fuel n : nat) (bs : list Byte.byte) : list (list Byte.byte) :=
  match fuel with
  | O => []
  | Datatypes.S fuel' =>
      match bs with
      | [] => []
      | _ => firstn n bs :: chunks_fuel fuel' n (skipn n bs)
      end
  end.

Definition chunks (n : nat) (bs : list Byte.byte) : list (list Byte.byte) :=
  chunks_fuel (length bs) n bs.

Definition reads_of (bs : list Byte.byte) : list read_event :=
  map Ok (chunks chunk_bytes bs).

(** The loop head shared by the two scripts:
    [while True: raw = read(chunk_bytes); if not raw or len(raw) <
    chunk_bytes: break; <body>]. *)
Fixpoint read_loop {St : Type} (body : St -> list Byte.byte -> M St)
    (reads : list read_event) (st : St) : M St :=
  match reads with
  | [] => fun w => (Ok st, log (EvRead 0) w)
  | Raise e :: _ => raise e
  | Ok raw :: rest =>
      fun w =>
        let w1 := log (EvRead (length raw)) w in
        if (length raw =? 0)%nat || (length raw <? chunk_bytes)%nat
        then (Ok st, w1)
        else (st' <- body st raw ;; read_loop body rest st') w1
  end.

(** ** Scorer Adapter: the openwakeword model, an external collaborator *)

Record Scorer : Type := mkScorer {
  model : Type;                                   (* the state of a Model object *)
  Model_new : string -> result model;             (* Model([model_path]) *)
  model_keys : model -> list string;              (* list(model.models.keys()) *)
  model_predict : model -> list Q -> result ScoreMap * model
                                                  (* model.predict(samples_f) *)
}.

Section Scripts.

Context (sc : Scorer).
(** The decimal rendering of a float in an f-string. *)
Variable float_repr : Q -> string.

Definition predict (m : model sc) (frame : list Q) : M (ScoreMap * model sc) :=
  fun w => match model_predict sc m frame with
           | (Ok pred, m') => (Ok (pred, m'), log (EvPredict frame (Ok pred)) w)
           | (Raise e, _) => (Raise e, log (EvPredict frame (Raise e)) w)
           end.

(** [model_path = sys.argv[1] if len(sys.argv) > 1 else None], followed by
    the test [if not model_path]: the path, when there is a non-empty one. *)
Definition model_path (argv : list string) : option string :=
  match argv !! 1%nat with
  | Some p => if String.eqb p "" then None else Some p
  | None => None
  end.

(** *** wake_listener.py *)

Definition threshold : Q := 1 # 2.
Definition debounce_seconds : Q := 5 # 2.

(** The body of the loop, after the size check of the read. The state is
    the model object and [last_wake]. *)
Definition listen_frame (model_name : string) (st : model sc * Q)
    (raw : list Byte.byte) : M (model sc * Q) :=
  let '(m, last_wake) := st in
  samples <- lift (np_frombuffer_int16 raw) ;;
  if negb (length samples =? 1280)%nat then ret (m, last_wake)   (* continue *)
  else
    let samples_f := normalize samples in
    r <- predict m samples_f ;;
    let '(predictions, m') := r in
    let score := dict_get predictions model_name 0 in
    if Qle_bool threshold score then
      now <- time_time ;;
      if Qle_bool debounce_seconds (now - last_wake) then
        last_wake' <- time_time ;;
        print_stdout "WAKE" ;;;
        ret (m', last_wake')
      else ret (m', last_wake)
    else ret (m', last_wake).

(** [while True: raw = read(chunk_bytes); if not raw or len(raw) <
    chunk_bytes: break; ...] *)
Fixpoint listen_loop (model_name : string) (reads : list read_event)
    (st : model sc * Q) : M (model sc * Q) :=
  match reads with
  | [] => fun w => (Ok st, log (EvRead 0) w)
  | Raise e :: _ => raise e
  | Ok raw :: rest =>
      fun w =>
        let w1 := log (EvRead (length raw)) w in
        if (length raw =? 0)%nat || (length raw <? chunk_bytes)%nat
        then (Ok st, w1)
        else (st' <- listen_frame model_name st raw ;;
              listen_loop model_name rest st') w1
  end.

Definition listener_main (argv : list string) (imports : result unit)
    (stdin : list read_event) : M unit :=
  match model_path argv with
  | None =>
      print_stderr "WAKE_LISTENER_ERROR: need model path (e.g. scripts/wake_listener.py models/wake/hey_jeeves.onnx)" ;;;
      sys_exit 1
  | Some path =>
      try_except (lift imports)
        (fun e => if is_ImportError e then
           Some (print_stderr "WAKE_LISTENER_ERROR: install openwakeword and numpy: pip install openwakeword onnxruntime numpy" ;;;
                 sys_exit 1)
         else None) ;;;
      m <- try_except (lift (Model_new sc path))
             (fun e => if is_Exception e then
                Some (print_stderr ("WAKE_LISTENER_ERROR: failed to load model: " +:+ exn_str e) ;;;
                      sys_exit 1)
              else None) ;;
      let model_name := hd "hey_jeeves" (model_keys sc m) in
      let last_wake := 0 in
      try_except (listen_loop model_name stdin (m, last_wake) ;;; ret tt)
        (fun e => if is_interruption e then Some (ret tt)
                  else if is_Exception e then
                    Some (print_stderr ("WAKE_LISTENER_ERROR: " +:+ exn_str e) ;;;
                          sys_exit 1)
                  else None)
  end.

Definition wake_listener (argv : list string) (imports : result unit)
    (stdin : list read_event) (w : world) : termination * world :=
  run_process (listener_main argv imports stdin) w.

(** *** wake_score_stdin.py *)

(** The body of the loop, after the size check of the read. The state is
    the model object and [max_score]. *)
Definition score_frame (model_name : string) (st : model sc * Q)
    (raw : list Byte.byte) : M (model sc * Q) :=
  let '(m, max_score) := st in
  samples <- lift (np_frombuffer_int16 raw) ;;
  if negb (length samples =? 1280)%nat then ret (m, max_score)   (* continue *)
  else
    let samples_f := normalize samples in
    r <- predict m samples_f ;;
    let '(pred, m') := r in
    let score := dict_get pred model_name 0 in
    if Qltb max_score score then ret (m', score) else ret (m', max_score).

Fixpoint score_loop (model_name : string) (reads : list read_event)
    (st : model sc * Q) : M (model sc * Q) :=
  match reads with
  | [] => fun w => (Ok st, log (EvRead 0) w)
  | Raise e :: _ => raise e
  | Ok raw :: rest =>
      fun w =>
        let w1 := log (EvRead (length raw)) w in
        if (length raw =? 0)%nat || (length raw <? chunk_bytes)%nat
        then (Ok st, w1)
        else (st' <- score_frame model_name st raw ;;
              score_loop model_name rest st') w1
  end.

Definition score_main (argv : list string) (stdin : list read_event) : M unit :=
  match model_path argv with
  | None => print_stdout "MAX 0.0" ;;; sys_exit 1
  | Some path =>
      m <- try_except (lift (Model_new sc path))
             (fun e => if is_Exception e then
                Some (print_stdout "MAX 0.0" ;;; sys_exit 1)
              else None) ;;
      model_name <- match model_keys sc m with
                    | [] => raise (IndexError "list index out of range")
                    | k :: _ => ret k
                    end ;;
      let max_score := 0 in
      st <- score_loop model_name stdin (m, max_score) ;;
      print_stdout ("MAX " +:+ float_repr (snd st))
  end.

(** The imports of numpy and openwakeword are at module level here: when
    they fail, [main] is never entered. *)
Definition wake_score_stdin (argv : list string) (imports : result unit)
    (stdin : list read_event) (w : world) : termination * world :=
  run_process (lift imports ;;; score_main argv stdin) w.

(** *** The loop bodies as step relations *)

(** What one pass through the body of the listener loop does, case by
    case. [listen_frame_step] below shows that [listen_frame] follows it. *)
Inductive listen_step (model_name : string) (m : model sc) (last_wake : Q)
    (raw : list Byte.byte) (w : world) : result (model sc * Q) -> world -> Prop :=
| LsBuffer e :
    np_frombuffer_int16 raw = Raise e ->
    listen_step model_name m last_wake raw w (Raise e) w
| LsSkip samples :
    np_frombuffer_int16 raw = Ok samples ->
    length samples <> 1280%nat ->
    listen_step model_name m last_wake raw w (Ok (m, last_wake)) w
| LsPredictRaise samples e m' :
    np_frombuffer_int16 raw = Ok samples ->
    length samples = 1280%nat ->
    model_predict sc m (normalize samples) = (Raise e, m') ->
    listen_step model_name m last_wake raw w (Raise e)
      (log (EvPredict (normalize samples) (Raise e)) w)
| LsBelow samples pred m' :
    np_frombuffer_int16 raw = Ok samples ->
    length samples = 1280%nat ->
    model_predict sc m (normalize samples) = (Ok pred, m') ->
    dict_get pred model_name 0 < threshold ->
    listen_step model_name m last_wake raw w (Ok (m', last_wake))
      (log (EvPredict (normalize samples) (Ok pred)) w)
| LsDebounced samples pred m' :
    np_frombuffer_int16 raw = Ok samples ->
    length samples = 1280%nat ->
    model_predict sc m (normalize samples) = (Ok pred, m') ->
    threshold <= dict_get pred model_name 0 ->
    clock w (ticks w) - last_wake < debounce_seconds ->
    listen_step model_name m last_wake raw w (Ok (m', last_wake))
      (tick (log (EvPredict (normalize samples) (Ok pred)) w))
| LsBrokenPipe samples pred m' :
    np_frombuffer_int16 raw = Ok samples ->
    length samples = 1280%nat ->
    model_predict sc m (normalize samples) = (Ok pred, m') ->
    threshold <= dict_get pred model_name 0 ->
    debounce_seconds <= clock w (ticks w) - last_wake ->
    stdout_room w = Some O ->
    listen_step model_name m last_wake raw w (Raise BrokenPipeError)
      (log (EvUnflushed "WAKE")
         (tick (tick (log (EvPredict (normalize samples) (Ok pred)) w))))
| LsWake samples pred m' room :
    np_frombuffer_int16 raw = Ok samples ->
    length samples = 1280%nat ->
    model_predict sc m (normalize samples) = (Ok pred, m') ->
    threshold <= dict_get pred model_name 0 ->
    debounce_seconds <= clock w (ticks w) - last_wake ->
    stdout_room w = option_map Datatypes.S room ->
    listen_step model_name m last_wake raw w
      (Ok (m', clock w (Datatypes.S (ticks w))))
      (emitted "WAKE" room (tick (tick (log (EvPredict (normalize samples) (Ok pred)) w)))).

(** The same for the scoring loop, whose state is the model and
    [max_score]. *)
Inductive score_step (model_name : string) (m : model sc) (max_score : Q)
    (raw : list Byte.byte) (w : world) : result (model sc * Q) -> world -> Prop :=
| SsBuffer e :
    np_frombuffer_int16 raw = Raise e ->
    score_step model_name m max_score raw w (Raise e) w
| SsSkip samples :
    np_frombuffer_int16 raw = Ok samples ->
    length samples <> 1280%nat ->
    score_step model_name m max_score raw w (Ok (m, max_score)) w
| SsPredictRaise samples e m' :
    np_frombuffer_int16 raw = Ok samples ->
    length samples = 1280%nat ->
    model_predict sc m (normalize samples) = (Raise e, m') ->
    score_step model_name m max_score raw w (Raise e)
      (log (EvPredict (normalize samples) (Raise e)) w)
| SsHigher samples pred m' :
    np_frombuffer_int16 raw = Ok samples ->
    length samples = 1280%nat ->
    model_predict sc m (normalize samples) = (Ok pred, m') ->
    max_score < dict_get pred model_name 0 ->
    score_step model_name m max_score raw w (Ok (m', dict_get pred model_name 0))
      (log (EvPredict (normalize samples) (Ok pred)) w)
| SsKeep samples pred m' :
    np_frombuffer_int16 raw = Ok samples ->
    length samples = 1280%nat ->
    model_predict sc m (normalize samples) = (Ok pred, m') ->
    dict_get pred model_name 0 <= max_score ->
    score_step model_name m max_score raw w (Ok (m', max_score))
      (log (EvPredict (normalize samples) (Ok pred)) w).

(** The keyword the listener watches, given the loaded model. *)
Definition listener_keyword (m : model sc) : string :=
  hd "hey_jeeves" (model_keys sc m).

(** The active-keyword scores of a run of frames, as the model returns
    them when it is called on the frames in order; [None] when one of the
    calls raises. *)
Fixpoint frame_scores (model_name : string) (m : model sc)
    (frames : list (list Byte.byte)) : option (list Q) :=
  match frames with
  | [] => Some []
  | raw :: rest =>
      match model_predict sc m (normalize (int16_pairs raw)) with
      | (Ok pred, m') =>
          option_map (cons (dict_get pred model_name 0))
                     (frame_scores model_name m' rest)
      | (Raise _, _) => None
      end
  end.

End Scripts.

Arguments listen_step {sc}.
Arguments score_step {sc}.

(** ** Observations on traces *)

(** The complete frames of a byte stream. *)
Definition full_frames (bs : list Byte.byte) : list (list Byte.byte) :=
  List.filter (fun raw => (length raw =? chunk_bytes)%nat) (chunks chunk_bytes bs).

(** The stamps of the lines on stdout, newest first: the stamp of a line
    is the clock reading taken just before it went out. *)
Fixpoint wake_stamps (tr : list event) : list Q :=
  match tr with
  | [] => []
  | e :: r =>
      match e, r with
      | EvStdout _, EvClock s :: _ => s :: wake_stamps r
      | _, _ => wake_stamps r
      end
  end.

(** Neighbours in a newest-first list of stamps are at least [d] apart. *)
Fixpoint spaced (d : Q) (l : list Q) : Prop :=
  match l with
  | [] => True
  | a :: r => match r with b :: _ => b + d <= a | [] => True end /\ spaced d r
  end.

(** Every line on stdout has a stamp, and the stamps are at least the
    debounce interval apart. *)
Definition debounce_ok (tr : list event) : Prop :=
  spaced debounce_seconds (wake_stamps tr) /\
  length (wake_stamps tr) = length (stdout_lines tr).

(** The invariant of the listener loop behind [debounce_ok]: the clock
    does not run backwards, and [last_wake] is the newest stamp. *)
Definition debounce_inv (last_wake : Q) (w : world) : Prop :=
  (forall n, clock w n <= clock w (Datatypes.S n)) /\
  debounce_ok (trace w) /\
  match wake_stamps (trace w) with
  | s :: _ => s = last_wake
  | [] => True
  end.

(** Every line on stdout is [WAKE], and what precedes it in the trace is
    a prediction whose active-keyword score reaches the threshold,
    followed by the two clock readings. *)
Fixpoint wakes_justified (name : string) (tr : list event) : Prop :=
  match tr with
  | [] => True
  | EvStdout line :: r =>
      (line = "WAKE"%string /\
       exists s c f pred r',
         r = EvClock s :: EvClock c :: EvPredict f (Ok pred) :: r' /\
         threshold <= dict_get pred name 0) /\
      wakes_justified name r
  | _ :: r => wakes_justified name r
  end.

(** Two traces that differ at most in the byte counts of their reads. *)
Definition forget_read_sizes (tr : list event) : list event :=
  map (fun e => match e with EvRead _ => EvRead 0 | _ => e end) tr.

(** Two runs that end alike: the same result, and worlds that differ at
    most in the byte counts of the reads. *)
Definition same_run {A} (r1 r2 : result A * world) : Prop :=
  fst r1 = fst r2 /\
  forget_read_sizes (trace (snd r1)) = forget_read_sizes (trace (snd r2)) /\
  ticks (snd r1) = ticks (snd r2) /\
  clock (snd r1) = clock (snd r2) /\
  stdout_room (snd r1) = stdout_room (snd r2).

(** What [max_score] holds after the scores of a run of frames, starting
    from [mx]: the fold of [if score > max_score: max_score = score]. *)
Definition running_max (mx : Q) (scores : list Q) : Q :=
  fold_left (fun acc score => if Qltb acc score then score else acc) scores mx.

(** Frames handed to [model.predict], oldest first. *)
Fixpoint predicted (tr : list event) : list (list Q) :=
  match tr with
  | [] => []
  | EvPredict f _ :: r => predicted r ++ [f]
  | _ :: r => predicted r
  end.

(** Number of predictions whose active-keyword score reaches the
    threshold. *)
Fixpoint reaching (name : string) (tr : list event) : nat :=
  match tr with
  | [] => O
  | EvPredict _ (Ok pred) :: r =>
      if Qle_bool threshold (dict_get pred name 0)
      then Datatypes.S (reaching name r) else reaching name r
  | _ :: r => reaching name r
  end.

(** ** A scripted scorer and sample inputs, to run the scripts on *)

(** A model that loads but registers no keyword. *)
Definition keyless : Scorer :=
  mkScorer unit (fun _ => Ok tt) (fun _ => []) (fun m _ => (Ok ∅, m)).

(** The model replays a script of results, one per call of [predict],
    whatever the frame; loading fails with [fail_load] when given. *)
Definition scripted (fail_load : option exn) (script : list (result ScoreMap)) : Scorer :=
  mkScorer (list (result ScoreMap))
    (fun _ => match fail_load with Some e => Raise e | None => Ok script end)
    (fun _ => ["hey_jeeves"%string])
    (fun m _ => match m with [] => (Ok ∅, []) | r :: m' => (r, m') end).

Definition says (score : Q) : result ScoreMap :=
  Ok (<["hey_jeeves"%string := score]> ∅).

(** Floats rendered with one decimal, enough for the samples below. *)
Definition repr_tenths (x : Q) : string :=
  let t := Qfloor (x * 10) in
  pretty (t / 10)%Z +:+ "." +:+ pretty (t mod 10)%Z.

(** A clock that starts at [t0] and advances by [dt] at each reading. *)
Definition steady_clock (t0 dt : Z) : nat -> Q :=
  fun n => inject_Z (t0 + dt * Z.of_nat n).

Definition fresh_world (clk : nat -> Q) : world := mkWorld [] 0 clk None.

(** The same, with a consumer of stdout that is gone already. *)
Definition deaf_world (clk : nat -> Q) : world := mkWorld [] 0 clk (Some O).

Definition silence : list Byte.byte := repeat x00 2560.
Definition half_frame : list Byte.byte := repeat x01 1280.

Definition listener_argv : list string :=
  ["wake_listener.py"; "hey_jeeves.onnx"]%string.
Definition score_argv : list string :=
  ["wake_score_stdin.py"; "hey_jeeves.onnx"]%string.

(** * Properties *)

(** ** Sample Converter *)

Lemma pair_ind {A} (P : list A -> Prop) :
  P [] -> (forall a, P [a]) -> (forall a b l, P l -> P (a :: b :: l)) ->
  forall l, P l.
Proof.
  intros Hnil Hone Hstep.
  fix IH 1. intros [|a [|b l]]; [exact Hnil | apply Hone | apply Hstep, IH].
Qed.


Lemma int16_pairs_length raw : length (int16_pairs raw) = Nat.div2 (length raw).
Proof.
  induction raw as [|a|a b l IH] using pair_ind; [reflexivity..|].
  cbn [int16_pairs length Nat.div2]. now rewrite IH.
Qed.




Lemma np_frombuffer_full raw : length raw = chunk_bytes ->
  np_frombuffer_int16 raw = Ok (int16_pairs raw) /\ length (int16_pairs raw) = 1280%nat.
Proof.
  intros Hlen. unfold np_frombuffer_int16. rewrite int16_pairs_length, Hlen.
  split; reflexivity.
Qed.





(** ** The loops *)

(** Reduce the projections of the worlds built by the primitives. *)
Ltac wsimpl :=
  cbn [fst snd negb tick log emitted clock ticks stdout_room trace].

Section Loops.

Context (sc : Scorer).

Lemma Qle_bool_false x y : Qle_bool x y = false -> y < x.
Proof.
  intros H. apply Qnot_le_lt. intros Hle.
  apply Qle_bool_iff in Hle. congruence.
Qed.

(** [listen_frame] follows the step relation. *)
Lemma listen_frame_step name m lw raw w :
  listen_step name m lw raw w
    (fst (listen_frame sc name (m, lw) raw w))
    (snd (listen_frame sc name (m, lw) raw w)).
Proof.
  unfold listen_frame, bind, lift, ret, predict, time_time, print_stdout.
  destruct (np_frombuffer_int16 raw) as [samples|e] eqn:Hbuf; wsimpl;
    [|now apply LsBuffer].
  destruct (Nat.eqb_spec (length samples) 1280) as [Hn|Hn]; wsimpl;
    [|now apply LsSkip with samples].
  destruct (model_predict sc m (normalize samples)) as [[pred|e] m'] eqn:Hp;
    wsimpl; [|now apply LsPredictRaise with m'].
  destruct (Qle_bool threshold (dict_get pred name 0)) eqn:Hth; wsimpl;
    [|apply LsBelow; auto using Qle_bool_false].
  apply Qle_bool_iff in Hth.
  destruct (Qle_bool debounce_seconds (clock w (ticks w) - lw)) eqn:Hdb; wsimpl;
    [|apply LsDebounced; auto using Qle_bool_false].
  apply Qle_bool_iff in Hdb.
  destruct (stdout_room w) as [[|n]|] eqn:Hroom; wsimpl.
  - now apply LsBrokenPipe with m'.
  - now apply LsWake with (room := Some n).
  - now apply LsWake with (room := None).
Qed.

(** [score_frame] follows the step relation. *)
Lemma score_frame_step name m mx raw w :
  score_step name m mx raw w
    (fst (score_frame sc name (m, mx) raw w))
    (snd (score_frame sc name (m, mx) raw w)).
Proof.
  unfold score_frame, bind, lift, ret, predict.
  destruct (np_frombuffer_int16 raw) as [samples|e] eqn:Hbuf; cbn [fst snd];
    [|now apply SsBuffer].
  destruct (Nat.eqb_spec (length samples) 1280) as [Hn|Hn]; cbn [negb fst snd];
    [|now apply SsSkip with samples].
  destruct (model_predict sc m (normalize samples)) as [[pred|e] m'] eqn:Hp;
    cbn [fst snd]; [|now apply SsPredictRaise with m'].
  unfold Qltb.
  destruct (Qle_bool (dict_get pred name 0) mx) eqn:Hle; cbn [negb fst snd].
  - apply SsKeep; auto. now apply Qle_bool_iff.
  - apply SsHigher; auto using Qle_bool_false.
Qed.

(** Both loops are the shared loop head around their bodies. *)
Lemma listen_loop_read_loop name reads : forall st w,
  listen_loop sc name reads st w = read_loop (listen_frame sc name) reads st w.
Proof.
  induction reads as [|[raw|e] rest IH]; intros st w; cbn [listen_loop read_loop];
    [reflexivity| |reflexivity].
  destruct ((length raw =? 0)%nat || (length raw <? chunk_bytes)%nat); [reflexivity|].
  unfold bind. destruct (listen_frame sc name st raw _) as [[st'|e] w']; [apply IH|reflexivity].
Qed.

Lemma score_loop_read_loop name reads : forall st w,
  score_loop sc name reads st w = read_loop (score_frame sc name) reads st w.
Proof.
  induction reads as [|[raw|e] rest IH]; intros st w; cbn [score_loop read_loop];
    [reflexivity| |reflexivity].
  destruct ((length raw =? 0)%nat || (length raw <? chunk_bytes)%nat); [reflexivity|].
  unfold bind. destruct (score_frame sc name st raw _) as [[st'|e] w']; [apply IH|reflexivity].
Qed.

End Loops.

(** A loop invariant [P] on the state and the world, with a weaker
    property [Q] of the world for the runs that end in an exception. *)
Lemma read_loop_inv {St} (body : St -> list Byte.byte -> M St)
    (P : St -> world -> Prop) (Q : world -> Prop) :
  (forall st w n, P st w -> P st (log (EvRead n) w)) ->
  (forall st raw w, P st w ->
     match body st raw w with
     | (Ok st', w') => P st' w'
     | (Raise _, w') => Q w'
     end) ->
  (forall st w, P st w -> Q w) ->
  forall reads st w, P st w ->
    match read_loop body reads st w with
    | (Ok st', w') => P st' w'
    | (Raise _, w') => Q w'
    end.
Proof.
  intros Hread Hbody HPQ.
  induction reads as [|[raw|e] rest IH]; intros st w HP; cbn [read_loop].
  - now apply Hread.
  - destruct ((length raw =? 0)%nat || (length raw <? chunk_bytes)%nat);
      [now apply Hread|].
    unfold bind.
    specialize (Hbody st raw _ (Hread st w (length raw) HP)).
    destruct (body st raw _) as [[st'|e] w']; [now apply IH | exact Hbody].
  - unfold raise. now apply HPQ with st.
Qed.

(** The same with a property [Q] that may depend on the exception. *)
Lemma read_loop_inv_exn {St} (body : St -> list Byte.byte -> M St)
    (P : St -> world -> Prop) (Q : exn -> world -> Prop) :
  (forall st w n, P st w -> P st (log (EvRead n) w)) ->
  (forall st raw w, P st w ->
     match body st raw w with
     | (Ok st', w') => P st' w'
     | (Raise e, w') => Q e w'
     end) ->
  (forall st w e, P st w -> Q e w) ->
  forall reads st w, P st w ->
    match read_loop body reads st w with
    | (Ok st', w') => P st' w'
    | (Raise e, w') => Q e w'
    end.
Proof.
  intros Hread Hbody HPQ.
  induction reads as [|[raw|e] rest IH]; intros st w HP; cbn [read_loop].
  - now apply Hread.
  - destruct ((length raw =? 0)%nat || (length raw <? chunk_bytes)%nat);
      [now apply Hread|].
    unfold bind.
    specialize (Hbody st raw _ (Hread st w (length raw) HP)).
    destruct (body st raw _) as [[st'|e] w']; [now apply IH | exact Hbody].
  - unfold raise. now apply HPQ with st.
Qed.

(** ** The shutdown of the interpreter *)

Lemma shutdown_clean w0 t w' :
  unflushed (trace w') = unflushed (trace w0) ->
  shutdown w0 (t, w') = (t, w').
Proof.
  intros H. unfold shutdown. cbn [fst snd]. now rewrite H, Nat.ltb_irrefl.
Qed.


Lemma shutdown_world w0 tw :
  snd (shutdown w0 tw) = snd tw \/
  snd (shutdown w0 tw) = log (EvIgnored BrokenPipeError) (snd tw).
Proof.
  unfold shutdown.
  destruct (unflushed (trace w0) <? unflushed (trace (snd tw)))%nat; auto.
Qed.

(** ** The two scripts, from the command line to the loop *)

Section Mains.

Context (sc : Scorer).
Variable float_repr : Q -> string.


Lemma listener_no_path argv imports stdin w :
  model_path argv = None ->
  exists line,
    wake_listener sc argv imports stdin w = (Exit 1, log (EvStderr line) w).
Proof.
  intros H. unfold wake_listener, run_process, listener_main. rewrite H.
  eexists. unfold bind, print_stderr, sys_exit, raise. cbn [ending].
  apply shutdown_clean. reflexivity.
Qed.

Lemma print_stdout_open line w :
  stdout_room w <> Some O ->
  exists room, print_stdout line w = (Ok tt, emitted line room w).
Proof.
  intros H. unfold print_stdout.
  destruct (stdout_room w) as [[|n]|]; [congruence| |]; eexists; reflexivity.
Qed.

Lemma score_no_path argv stdin w :
  model_path argv = None -> stdout_room w <> Some O ->
  exists room,
    wake_score_stdin sc float_repr argv (Ok tt) stdin w
    = (Exit 1, emitted "MAX 0.0" room w).
Proof.
  intros H Hroom.
  destruct (print_stdout_open "MAX 0.0" w Hroom) as [room Hp]. exists room.
  unfold wake_score_stdin, run_process, score_main, bind, lift. rewrite H, Hp.
  unfold sys_exit, raise. cbn [ending].
  apply shutdown_clean. reflexivity.
Qed.

(** The listener, once the imports and the model are there: the loop,
    then the two [except] clauses, then the shutdown. *)
Lemma listener_run argv path m stdin w :
  model_path argv = Some path -> Model_new sc path = Ok m ->
  wake_listener sc argv (Ok tt) stdin w =
  shutdown w
    match listen_loop sc (listener_keyword sc m) stdin (m, 0) w with
    | (Ok _, w') => (Exit 0, w')
    | (Raise e, w') =>
        if is_interruption e then (Exit 0, w')
        else if is_Exception e then
          (Exit 1, log (EvStderr ("WAKE_LISTENER_ERROR: " +:+ exn_str e)) w')
        else (ending (Raise e), w')
    end.
Proof.
  intros Hpath Hload.
  unfold wake_listener, run_process, listener_main, try_except, bind, lift.
  rewrite Hpath, Hload. fold (listener_keyword sc m). f_equal.
  destruct (listen_loop sc (listener_keyword sc m) stdin (m, 0) w) as [[st|e] w'];
    [reflexivity|].
  destruct e; reflexivity.
Qed.

(** The scoring script, once the imports and the model are there: the
    loop, then the line [MAX], then the shutdown. *)
Lemma score_run argv path m name ks stdin w :
  model_path argv = Some path -> Model_new sc path = Ok m ->
  model_keys sc m = name :: ks ->
  wake_score_stdin sc float_repr argv (Ok tt) stdin w =
  shutdown w
    match score_loop sc name stdin (m, 0) w with
    | (Ok st, w') =>
        let '(r, w'') := print_stdout ("MAX " +:+ float_repr (snd st)) w' in
        (ending r, w'')
    | (Raise e, w') => (ending (Raise e), w')
    end.
Proof.
  intros Hpath Hload Hkeys.
  unfold wake_score_stdin, run_process, score_main, try_except, bind, lift, ret.
  rewrite Hpath, Hload, Hkeys. f_equal.
  destruct (score_loop sc name stdin (m, 0) w) as [[st|e] w']; reflexivity.
Qed.

(** A property of the world that diagnostics on stderr do not change
    holds at the end of the listener when it holds where the loop ends. *)
Lemma listener_final (P : world -> Prop) argv path m stdin w :
  (forall w0 line, P w0 -> P (log (EvStderr line) w0)) ->
  (forall w0 e, P w0 -> P (log (EvIgnored e) w0)) ->
  model_path argv = Some path -> Model_new sc path = Ok m ->
  P (snd (listen_loop sc (listener_keyword sc m) stdin (m, 0) w)) ->
  P (snd (wake_listener sc argv (Ok tt) stdin w)).
Proof.
  intros Herr Hign Hpath Hload Hloop.
  rewrite (listener_run argv path m stdin w Hpath Hload).
  match goal with |- P (snd (shutdown w ?tw)) =>
    assert (Htw : P (snd tw)); [|destruct (shutdown_world w tw) as [-> | ->]; auto]
  end.
  destruct (listen_loop sc (listener_keyword sc m) stdin (m, 0) w) as [[st|e] wl];
    cbn [snd] in *; [exact Hloop|].
  destruct (is_interruption e); [exact Hloop|].
  destruct (is_Exception e); cbn [snd]; auto.
Qed.

(** The same for any arguments and imports, when the property holds at
    the start. *)
Lemma listener_final_any (P : world -> Prop) argv imports stdin w :
  (forall w0 line, P w0 -> P (log (EvStderr line) w0)) ->
  (forall w0 e, P w0 -> P (log (EvIgnored e) w0)) ->
  P w ->
  (forall name m, P (snd (listen_loop sc name stdin (m, 0) w))) ->
  P (snd (wake_listener sc argv imports stdin w)).
Proof.
  intros Herr Hign Hstart Hloop.
  destruct (model_path argv) as [path|] eqn:Hpath.
  2:{ destruct (listener_no_path argv imports stdin w Hpath) as [line ->]. now apply Herr. }
  destruct imports as [[]|e].
  2:{ unfold wake_listener, run_process, listener_main, try_except, bind, lift.
      rewrite Hpath.
      match goal with |- P (snd (shutdown w ?tw)) =>
        assert (Htw : P (snd tw)); [|destruct (shutdown_world w tw) as [-> | ->]; auto]
      end.
      destruct (is_ImportError e); cbn [snd]; auto.
      unfold print_stderr, sys_exit, raise. cbn [snd]. now apply Herr. }
  destruct (Model_new sc path) as [m|e] eqn:Hload.
  2:{ unfold wake_listener, run_process, listener_main, try_except, bind, lift.
      rewrite Hpath, Hload.
      match goal with |- P (snd (shutdown w ?tw)) =>
        assert (Htw : P (snd tw)); [|destruct (shutdown_world w tw) as [-> | ->]; auto]
      end.
      destruct (is_Exception e); cbn [snd]; auto.
      unfold print_stderr, sys_exit, raise. cbn [snd]. now apply Herr. }
  now apply listener_final with path m.
Qed.

End Mains.

(** ** What the loops leave alone *)

Section Channels.

Context (sc : Scorer).

(** The listener loop writes nothing to stderr. *)
Lemma listen_loop_stderr name reads st w :
  stderr_lines (trace (snd (listen_loop sc name reads st w)))
  = stderr_lines (trace w).
Proof.
  rewrite listen_loop_read_loop.
  pose proof (read_loop_inv (listen_frame sc name)
    (fun _ w' => stderr_lines (trace w') = stderr_lines (trace w))
    (fun w' => stderr_lines (trace w') = stderr_lines (trace w))) as Hinv.
  specialize (Hinv (fun _ _ _ H => H)).
  assert (Hbody : forall st0 raw w0,
    stderr_lines (trace w0) = stderr_lines (trace w) ->
    match listen_frame sc name st0 raw w0 with
    | (Ok _, w') | (Raise _, w') => stderr_lines (trace w') = stderr_lines (trace w)
    end).
  { intros [m lw] raw w0 H0.
    pose proof (listen_frame_step sc name m lw raw w0) as Hs.
    destruct (listen_frame sc name (m, lw) raw w0) as [r w']. cbn [fst snd] in Hs.
    destruct Hs; wsimpl; cbn [stderr_lines]; exact H0. }
  specialize (Hinv Hbody (fun _ _ H => H) reads st w eq_refl).
  destruct (read_loop (listen_frame sc name) reads st w) as [[st'|e] w']; exact Hinv.
Qed.

(** The scoring loop writes nothing to stdout or stderr and leaves the
    pipe as it is. *)
Lemma score_loop_channels name reads st w :
  let w' := snd (score_loop sc name reads st w) in
  stdout_lines (trace w') = stdout_lines (trace w) /\
  stderr_lines (trace w') = stderr_lines (trace w) /\
  stdout_room w' = stdout_room w.
Proof.
  cbv zeta. rewrite score_loop_read_loop.
  set (P := fun w' : world =>
    stdout_lines (trace w') = stdout_lines (trace w) /\
    stderr_lines (trace w') = stderr_lines (trace w) /\
    stdout_room w' = stdout_room w).
  pose proof (read_loop_inv (score_frame sc name) (fun _ => P) P) as Hinv.
  specialize (Hinv (fun _ _ _ H => H)).
  assert (Hbody : forall st0 raw w0, P w0 ->
    match score_frame sc name st0 raw w0 with
    | (Ok _, w') | (Raise _, w') => P w'
    end).
  { intros [m mx] raw w0 H0.
    pose proof (score_frame_step sc name m mx raw w0) as Hs.
    destruct (score_frame sc name (m, mx) raw w0) as [r w']. cbn [fst snd] in Hs.
    destruct Hs; exact H0. }
  assert (HP : P w) by (repeat split).
  specialize (Hinv Hbody (fun _ _ H => H) reads st w HP).
  destruct (read_loop (score_frame sc name) reads st w) as [[st'|e] w']; exact Hinv.
Qed.

(** The scoring loop leaves no line in the buffer of stdout. *)
Lemma score_loop_unflushed name reads st w :
  unflushed (trace (snd (score_loop sc name reads st w))) = unflushed (trace w).
Proof.
  rewrite score_loop_read_loop.
  pose proof (read_loop_inv (score_frame sc name)
    (fun _ w' => unflushed (trace w') = unflushed (trace w))
    (fun w' => unflushed (trace w') = unflushed (trace w))) as Hinv.
  specialize (Hinv (fun _ _ _ H => H)).
  assert (Hbody : forall st0 raw w0,
    unflushed (trace w0) = unflushed (trace w) ->
    match score_frame sc name st0 raw w0 with
    | (Ok _, w') | (Raise _, w') => unflushed (trace w') = unflushed (trace w)
    end).
  { intros [m mx] raw w0 H0.
    pose proof (score_frame_step sc name m mx raw w0) as Hs.
    destruct (score_frame sc name (m, mx) raw w0) as [r w']. cbn [fst snd] in Hs.
    destruct Hs; exact H0. }
  specialize (Hinv Hbody (fun _ _ H => H) reads st w eq_refl).
  destruct (read_loop (score_frame sc name) reads st w) as [[st'|e] w']; exact Hinv.
Qed.

(** The listener loop leaves a line in the buffer of stdout only when it
    ends on the [print] of a [WAKE] that hits a broken pipe. *)
Lemma listen_loop_unflushed name reads st w :
  match listen_loop sc name reads st w with
  | (Ok _, w') => unflushed (trace w') = unflushed (trace w)
  | (Raise e, w') =>
      unflushed (trace w') = unflushed (trace w) \/
      e = BrokenPipeError /\
      unflushed (trace w') = S (unflushed (trace w)) /\
      exists rest, trace w' = EvUnflushed "WAKE" :: rest
  end.
Proof.
  rewrite listen_loop_read_loop.
  apply (read_loop_inv_exn (listen_frame sc name)
    (fun _ w' => unflushed (trace w') = unflushed (trace w))
    (fun e w' =>
       unflushed (trace w') = unflushed (trace w) \/
       e = BrokenPipeError /\
       unflushed (trace w') = S (unflushed (trace w)) /\
       exists rest, trace w' = EvUnflushed "WAKE" :: rest)).
  - intros _ w0 k H. exact H.
  - intros [m lw] raw w0 H0.
    pose proof (listen_frame_step sc name m lw raw w0) as Hs.
    destruct (listen_frame sc name (m, lw) raw w0) as [r w']. cbn [fst snd] in Hs.
    destruct Hs; wsimpl; cbn [unflushed]; auto.
    right. rewrite H0. eauto.
  - intros _ w0 e H. now left.
  - reflexivity.
Qed.

End Channels.

(** ** Command line and model loading *)


(** C9: when loading the model raises an exception, the listener writes
    the diagnostic with the cause inlined to stderr and exits with status
    1 before any read, while the scoring script writes the line [MAX 0.0]
    to stdout and exits with status 1. *)
Theorem model_load_failure (sc : Scorer) (float_repr : Q -> string)
    (argv : list string) (path : string) (e : exn) (stdin : list read_event)
    (w : world) :
  model_path argv = Some path ->
  Model_new sc path = Raise e ->
  is_Exception e = true ->
  wake_listener sc argv (Ok tt) stdin w
  = (Exit 1,
     log (EvStderr ("WAKE_LISTENER_ERROR: failed to load model: " +:+ exn_str e)) w) /\
  (stdout_room w <> Some O ->
   let r := wake_score_stdin sc float_repr argv (Ok tt) stdin w in
   fst r = Exit 1 /\
   stdout_lines (trace (snd r)) = stdout_lines (trace w) ++ ["MAX 0.0"%string] /\
   reads_done (trace (snd r)) = reads_done (trace w) /\
   stderr_lines (trace (snd r)) = stderr_lines (trace w)).
Proof.
  intros Hpath Hload He. split.
  - unfold wake_listener, run_process, listener_main, try_except, bind, lift.
    rewrite Hpath, Hload, He. unfold print_stderr, sys_exit, raise. cbn [ending].
    apply shutdown_clean. reflexivity.
  - intros Hroom. cbv zeta.
    destruct (print_stdout_open "MAX 0.0" w Hroom) as [room Hp].
    unfold wake_score_stdin, run_process, score_main, try_except, bind, lift.
    rewrite Hpath, Hload, He, Hp. unfold sys_exit, raise. cbn [ending].
    rewrite shutdown_clean by reflexivity. repeat split.
Qed.

(** ** Exceptions in the loop *)

(** C7 (as amended): in listener mode an interrupt in the loop ends the
    process silently, with status 0, nothing on stderr and no word of the
    interpreter. The scoring script has no handler around its loop: there
    an interrupt or a broken pipe leaves the process uncaught, and no
    [MAX] line is written. *)
Theorem interruption_handling (sc : Scorer) (float_repr : Q -> string)
    (argv : list string) (path : string) (m : model sc)
    (stdin : list read_event) (w wl : world) :
  model_path argv = Some path ->
  Model_new sc path = Ok m ->
  (listen_loop sc (listener_keyword sc m) stdin (m, 0) w
   = (Raise KeyboardInterrupt, wl) ->
   wake_listener sc argv (Ok tt) stdin w = (Exit 0, wl) /\
   stderr_lines (trace wl) = stderr_lines (trace w)) /\
  (forall e name ks,
   is_interruption e = true ->
   model_keys sc m = name :: ks ->
   score_loop sc name stdin (m, 0) w = (Raise e, wl) ->
   wake_score_stdin sc float_repr argv (Ok tt) stdin w = (Crash e, wl) /\
   stdout_lines (trace wl) = stdout_lines (trace w)).
Proof.
  intros Hpath Hload. split.
  - intros Hloop. split.
    + rewrite (listener_run sc argv path m stdin w Hpath Hload), Hloop.
      cbn [is_interruption]. apply shutdown_clean.
      pose proof (listen_loop_unflushed sc (listener_keyword sc m) stdin (m, 0) w) as H.
      rewrite Hloop in H. destruct H as [H|[H _]]; [exact H | discriminate].
    + pose proof (listen_loop_stderr sc (listener_keyword sc m) stdin (m, 0) w) as H.
      now rewrite Hloop in H.
  - intros e name ks He Hkeys Hloop. split.
    + rewrite (score_run sc float_repr argv path m name ks stdin w Hpath Hload Hkeys),
        Hloop.
      pose proof (score_loop_unflushed sc name stdin (m, 0) w) as H.
      rewrite Hloop in H. cbn [snd] in H. rewrite (shutdown_clean _ _ _ H).
      destruct e; try discriminate; reflexivity.
    + pose proof (score_loop_channels sc name stdin (m, 0) w) as H.
      rewrite Hloop in H. apply H.
Qed.


(** ** Frame Reader *)

Section Chunks.

Variable n : nat.
Hypothesis n_pos : (0 < n)%nat.

Lemma chunks_fuel_enough : forall f1 f2 bs,
  (length bs <= f1)%nat -> (length bs <= f2)%nat ->
  chunks_fuel f1 n bs = chunks_fuel f2 n bs.
Proof.
  induction f1 as [|f1 IH]; intros f2 bs H1 H2.
  - destruct bs; [|cbn [length] in H1; lia]. now destruct f2.
  - destruct bs as [|b bs]; [now destruct f2|].
    destruct f2 as [|f2]; [cbn [length] in H2; lia|].
    cbn [chunks_fuel]. f_equal.
    cbn [length] in H1, H2.
    apply IH; rewrite length_skipn; cbn [length]; lia.
Qed.

Lemma chunks_nil : chunks n [] = [].
Proof. reflexivity. Qed.

Lemma chunks_short tail :
  (0 < length tail)%nat -> (length tail <= n)%nat -> chunks n tail = [tail].
Proof.
  intros Hpos Hle. unfold chunks.
  destruct tail as [|b tail]; [cbn [length] in Hpos; lia|].
  cbn [length chunks_fuel].
  rewrite firstn_all2 by exact Hle. rewrite skipn_all2 by exact Hle.
  now destruct (length tail).
Qed.

Lemma chunks_app_full frame rest :
  length frame = n -> chunks n (frame ++ rest) = frame :: chunks n rest.
Proof.
  intros Hlen. unfold chunks.
  destruct frame as [|b frame]; [cbn [length] in Hlen; lia|].
  cbn [length app chunks_fuel].
  change (b :: frame ++ rest) with ((b :: frame) ++ rest).
  rewrite <- Hlen at 1 3.
  rewrite firstn_app, Nat.sub_diag, firstn_all, firstn_O, app_nil_r.
  rewrite skipn_app, Nat.sub_diag, skipn_all, skipn_O. cbn [app].
  f_equal. apply chunks_fuel_enough; rewrite ?length_app; lia.
Qed.

Lemma chunks_concat frames tail :
  List.Forall (fun f => length f = n) frames ->
  (length tail < n)%nat ->
  chunks n (concat frames ++ tail)
  = frames ++ match tail with [] => [] | _ => [tail] end.
Proof.
  intros Hfull Htail. induction Hfull as [|f frames Hf _ IH]; cbn [concat app].
  - destruct tail as [|b tail]; [reflexivity|].
    apply chunks_short; cbn [length] in *; lia.
  - rewrite <- app_assoc, chunks_app_full by exact Hf. now rewrite IH.
Qed.

(** Every byte stream is a run of complete frames followed by a partial
    one, which is empty when the length is a multiple of the frame size. *)
Lemma split_frames : forall bs : list Byte.byte,
  exists frames tail,
    bs = concat frames ++ tail /\
    List.Forall (fun f => length f = n) frames /\
    length tail = (length bs mod n)%nat.
Proof.
  intros bs. remember (length bs) as k eqn:Hk.
  revert bs Hk. induction k as [k IH] using lt_wf_ind. intros bs Hk.
  destruct (Nat.lt_ge_cases k n) as [Hlt|Hge].
  - exists [], bs. cbn [concat app]. repeat split; [constructor|].
    rewrite Nat.mod_small; lia.
  - destruct (IH (k - n)%nat ltac:(lia) (skipn n bs)) as (frames & tail & Heq & Hfull & Hlen).
    { rewrite length_skipn. lia. }
    exists (firstn n bs :: frames), tail. cbn [concat]. repeat split.
    + rewrite <- app_assoc, <- Heq. symmetry. apply firstn_skipn.
    + constructor; [|exact Hfull]. rewrite length_firstn. lia.
    + rewrite Hlen. replace k with ((k - n) + 1 * n)%nat at 2 by lia.
      now rewrite Nat.Div0.mod_add.
Qed.

End Chunks.

Lemma same_run_refl {A} (r : result A * world) : same_run r r.
Proof. repeat split. Qed.

(** A short read at the end of the reads changes nothing but the byte
    count of the last read. *)
Lemma read_loop_short_tail {St} (body : St -> list Byte.byte -> M St) tail :
  (length tail < chunk_bytes)%nat ->
  forall frames st w,
    same_run (read_loop body (map Ok frames ++ [Ok tail]) st w)
             (read_loop body (map Ok frames) st w).
Proof.
  intros Htail. induction frames as [|f frames IH]; intros st w; cbn [map app read_loop].
  - rewrite (proj2 (Nat.ltb_lt _ _) Htail), orb_true_r. repeat split.
  - destruct ((length f =? 0)%nat || (length f <? chunk_bytes)%nat);
      [apply same_run_refl|].
    unfold bind. destruct (body st f _) as [[st'|e] w']; [apply IH|apply same_run_refl].
Qed.

Lemma chunk_bytes_pos : (0 < chunk_bytes)%nat.
Proof. unfold chunk_bytes. lia. Qed.

(** C6: in both loops a read of fewer than 2560 bytes ends the loop like
    the end of the stream does: the state is unchanged, nothing is
    converted or scored, and no later read is made. On a byte stream
    whose length is not a multiple of 2560 both loops therefore run as
    they do on the stream without its trailing partial block. *)
Theorem partial_block_discarded (sc : Scorer) :
  (forall name raw rest st w, (length raw < chunk_bytes)%nat ->
     listen_loop sc name (Ok raw :: rest) st w = (Ok st, log (EvRead (length raw)) w) /\
     score_loop sc name (Ok raw :: rest) st w = (Ok st, log (EvRead (length raw)) w)) /\
  (forall name st w,
     listen_loop sc name [] st w = (Ok st, log (EvRead 0) w) /\
     score_loop sc name [] st w = (Ok st, log (EvRead 0) w)) /\
  (forall bs : list Byte.byte, (length bs mod chunk_bytes)%nat <> O ->
     exists frames tail,
       bs = concat frames ++ tail /\
       List.Forall (fun f => length f = chunk_bytes) frames /\
       length tail = (length bs mod chunk_bytes)%nat /\
       reads_of bs = map Ok frames ++ [Ok tail] /\
       reads_of (concat frames) = map Ok frames /\
       forall name st w,
         same_run (listen_loop sc name (reads_of bs) st w)
                  (listen_loop sc name (reads_of (concat frames)) st w) /\
         same_run (score_loop sc name (reads_of bs) st w)
                  (score_loop sc name (reads_of (concat frames)) st w)).
Proof.
  split; [|split].
  - intros name raw rest st w Hshort. cbn [listen_loop score_loop].
    rewrite (proj2 (Nat.ltb_lt _ _) Hshort), orb_true_r. split; reflexivity.
  - intros name st w. split; reflexivity.
  - intros bs Hmod.
    destruct (split_frames chunk_bytes chunk_bytes_pos bs)
      as (frames & tail & Hbs & Hfull & Hlen).
    assert (Htail : (length tail < chunk_bytes)%nat).
    { rewrite Hlen. apply Nat.mod_upper_bound. pose proof chunk_bytes_pos. lia. }
    assert (Hreads : reads_of bs = map Ok frames ++ [Ok tail]).
    { unfold reads_of. rewrite Hbs at 1.
      rewrite (chunks_concat chunk_bytes chunk_bytes_pos frames tail Hfull Htail).
      destruct tail as [|b tail]; [cbn [length] in Hlen; lia|].
      now rewrite map_app. }
    assert (Hwhole : reads_of (concat frames) = map Ok frames).
    { unfold reads_of. rewrite <- (app_nil_r (concat frames)).
      rewrite (chunks_concat chunk_bytes chunk_bytes_pos frames [] Hfull chunk_bytes_pos).
      now rewrite app_nil_r. }
    exists frames, tail. do 5 (split; [assumption|]).
    intros name st w. rewrite Hreads, Hwhole. split.
    + rewrite !listen_loop_read_loop. now apply read_loop_short_tail.
    + rewrite !score_loop_read_loop. now apply read_loop_short_tail.
Qed.

(** ** Running maximum *)

Lemma running_max_cons mx s scores :
  running_max mx (s :: scores)
  = running_max (if Qltb mx s then s else mx) scores.
Proof. reflexivity. Qed.

Lemma Qltb_lt x y : Qltb x y = true -> x < y.
Proof.
  unfold Qltb. intros H. apply Qle_bool_false.
  now destruct (Qle_bool y x).
Qed.

Lemma Qltb_ge x y : Qltb x y = false -> y <= x.
Proof.
  unfold Qltb. intros H. apply Qle_bool_iff.
  now destruct (Qle_bool y x).
Qed.

Lemma running_max_ge scores : forall mx, mx <= running_max mx scores.
Proof.
  induction scores as [|s scores IH]; intros mx; [apply Qle_refl|].
  rewrite running_max_cons. destruct (Qltb mx s) eqn:E; [|apply IH].
  apply Qle_trans with s; [apply Qlt_le_weak, Qltb_lt, E | apply IH].
Qed.

Lemma running_max_upper scores : forall mx s,
  List.In s scores -> s <= running_max mx scores.
Proof.
  induction scores as [|s0 scores IH]; intros mx s Hin; [destruct Hin|].
  rewrite running_max_cons. destruct Hin as [<-|Hin]; [|now apply IH].
  destruct (Qltb mx s0) eqn:E; [apply running_max_ge|].
  apply Qle_trans with mx; [apply Qltb_ge, E | apply running_max_ge].
Qed.

Lemma running_max_attained scores : forall mx,
  running_max mx scores = mx \/ List.In (running_max mx scores) scores.
Proof.
  induction scores as [|s scores IH]; intros mx; [now left|].
  rewrite running_max_cons. destruct (Qltb mx s) eqn:E.
  - right. destruct (IH s) as [->|Hin]; [now left | now right].
  - destruct (IH mx) as [->|Hin]; [now left | right; now right].
Qed.

(** With scores that are not negative the fold from 0.0 is their maximum. *)
Lemma running_max_is_max scores :
  List.Forall (fun s => 0 <= s) scores -> scores <> [] ->
  exists s, List.In s scores /\ running_max 0 scores == s.
Proof.
  intros Hpos Hne. destruct (running_max_attained scores 0) as [Hz|Hin].
  - destruct scores as [|s0 scores]; [congruence|].
    exists s0. split; [now left|]. apply Qle_antisym.
    + rewrite Hz. now inversion Hpos.
    + apply running_max_upper. now left.
  - exists (running_max 0 scores). split; [exact Hin | apply Qeq_refl].
Qed.

Section Scoring.

Context (sc : Scorer).

(** One pass of the scoring loop on a complete frame that the model
    scores. *)
Lemma score_frame_full name m mx raw w pred m' :
  length raw = chunk_bytes ->
  model_predict sc m (normalize (int16_pairs raw)) = (Ok pred, m') ->
  score_frame sc name (m, mx) raw w
  = (Ok (m', if Qltb mx (dict_get pred name 0) then dict_get pred name 0 else mx),
     log (EvPredict (normalize (int16_pairs raw)) (Ok pred)) w).
Proof.
  intros Hlen Hp. destruct (np_frombuffer_full raw Hlen) as [Hbuf Hn].
  unfold score_frame, bind, lift, ret, predict.
  rewrite Hbuf, Hn, Nat.eqb_refl, Hp. cbn [negb].
  now destruct (Qltb mx (dict_get pred name 0)).
Qed.

(** Each pass of the loop body leaves [max_score] at least where it was. *)
Lemma score_frame_monotone name m mx raw w st' w' :
  score_frame sc name (m, mx) raw w = (Ok st', w') -> mx <= snd st'.
Proof.
  intros H. pose proof (score_frame_step sc name m mx raw w) as Hs.
  rewrite H in Hs. cbn [fst snd] in Hs.
  inversion Hs; subst; cbn [snd]; try apply Qle_refl.
  now apply Qlt_le_weak.
Qed.

Lemma full_frame_enters (raw : list Byte.byte) :
  length raw = chunk_bytes ->
  (length raw =? 0)%nat || (length raw <? chunk_bytes)%nat = false.
Proof. intros ->. reflexivity. Qed.

(** The scoring loop on complete frames, followed by the end of the
    stream or by a short read, folds the scores of the frames. *)
Lemma score_loop_frames name tail_reads :
  tail_reads = [] \/
  (exists tail, tail_reads = [Ok tail] /\ (length tail < chunk_bytes)%nat) ->
  forall frames m mx w scores,
    List.Forall (fun f => length f = chunk_bytes) frames ->
    frame_scores sc name m frames = Some scores ->
    exists m' w',
      score_loop sc name (map Ok frames ++ tail_reads) (m, mx) w
      = (Ok (m', running_max mx scores), w').
Proof.
  intros Htail. induction frames as [|f frames IH]; intros m mx w scores Hfull Hsc.
  - cbn [frame_scores] in Hsc. injection Hsc as <-. cbn [map app].
    destruct Htail as [->|(tail & -> & Hshort)]; cbn [score_loop].
    + eauto.
    + rewrite (proj2 (Nat.ltb_lt _ _) Hshort), orb_true_r. eauto.
  - inversion Hfull as [|? ? Hf Hrest]; subst.
    cbn [frame_scores] in Hsc.
    destruct (model_predict sc m (normalize (int16_pairs f))) as [[pred|e] m1] eqn:Hp;
      [|discriminate].
    destruct (frame_scores sc name m1 frames) as [scores'|] eqn:Hsc'; [|discriminate].
    cbn [option_map] in Hsc. injection Hsc as <-.
    cbn [map app score_loop]. rewrite (full_frame_enters f Hf).
    unfold bind. rewrite (score_frame_full name m mx f _ pred m1 Hf Hp).
    rewrite running_max_cons. now apply IH.
Qed.

Lemma full_frames_concat frames tail :
  List.Forall (fun f => length f = chunk_bytes) frames ->
  (length tail < chunk_bytes)%nat ->
  full_frames (concat frames ++ tail) = frames.
Proof.
  intros Hfull Htail. unfold full_frames.
  rewrite (chunks_concat chunk_bytes chunk_bytes_pos frames tail Hfull Htail).
  rewrite List.filter_app.
  assert (Hlast : List.filter (fun raw => (length raw =? chunk_bytes)%nat)
                    match tail with [] => [] | _ => [tail] end = []).
  { destruct tail as [|b tail]; [reflexivity|]. cbn [List.filter].
    destruct (Nat.eqb_spec (length (b :: tail)) chunk_bytes); [lia|reflexivity]. }
  rewrite Hlast, app_nil_r. clear Hlast Htail.
  induction Hfull as [|f frames Hf _ IH]; [reflexivity|].
  cbn [List.filter]. rewrite Hf, Nat.eqb_refl. now rewrite IH.
Qed.

End Scoring.

(** C2: on a finite byte stream, with a model that scores every complete
    frame and scores that are not negative (the range of a score map is
    [0, 1]), the scoring script ends with status 0 after writing the one
    line [MAX v], where [v] is at least every score and is one of them,
    or 0.0 when no frame was scored; and no pass of the loop body lowers
    the running maximum. *)
Theorem running_maximum (sc : Scorer) (float_repr : Q -> string)
    (argv : list string) (path : string) (m : model sc) (name : string)
    (ks : list string) (bs : list Byte.byte) (scores : list Q) (w : world) :
  model_path argv = Some path ->
  Model_new sc path = Ok m ->
  model_keys sc m = name :: ks ->
  stdout_room w <> Some O ->
  frame_scores sc name m (full_frames bs) = Some scores ->
  List.Forall (fun s => 0 <= s) scores ->
  exists v : Q,
    (let r := wake_score_stdin sc float_repr argv (Ok tt) (reads_of bs) w in
     fst r = Exit 0 /\
     stdout_lines (trace (snd r))
     = stdout_lines (trace w) ++ ["MAX " +:+ float_repr v]) /\
    (forall s, List.In s scores -> s <= v) /\
    (scores = [] -> v = 0) /\
    (scores <> [] -> exists s, List.In s scores /\ v == s) /\
    (forall m0 mx raw w0 st' w', 
       score_frame sc name (m0, mx) raw w0 = (Ok st', w') -> mx <= snd st').
Proof.
  intros Hpath Hload Hkeys Hroom Hsc Hpos.
  exists (running_max 0 scores). split; [|split; [|split; [|split]]].
  - destruct (split_frames chunk_bytes chunk_bytes_pos bs)
      as (frames & tail & Hbs & Hfull & Hlen).
    assert (Htail : (length tail < chunk_bytes)%nat).
    { rewrite Hlen. apply Nat.mod_upper_bound. pose proof chunk_bytes_pos. lia. }
    assert (Hreads : reads_of bs
                     = map Ok frames ++ match tail with [] => [] | _ => [Ok tail] end).
    { unfold reads_of. rewrite Hbs at 1.
      rewrite (chunks_concat chunk_bytes chunk_bytes_pos frames tail Hfull Htail).
      rewrite map_app. now destruct tail. }
    rewrite Hbs, (full_frames_concat frames tail Hfull Htail) in Hsc.
    destruct (score_loop_frames sc name (match tail with [] => [] | _ => [Ok tail] end))
      with (frames := frames) (m := m) (mx := 0) (w := w) (scores := scores)
      as (m' & wl & Hloop); [|assumption..|].
    { destruct tail; [now left | right; eauto]. }
    pose proof (score_loop_channels sc name (reads_of bs) (m, 0) w) as Hch.
    pose proof (score_loop_unflushed sc name (reads_of bs) (m, 0) w) as Hun.
    cbv zeta in Hch.
    rewrite (score_run sc float_repr argv path m name ks _ w Hpath Hload Hkeys).
    rewrite Hreads in *. rewrite Hloop in *. cbn [snd] in *.
    destruct Hch as (Hout & _ & Hroom').
    destruct (print_stdout_open ("MAX " +:+ float_repr (running_max 0 scores)) wl)
      as [room Hp]; [congruence|].
    rewrite Hp. cbn [ending].
    rewrite shutdown_clean by (cbn [emitted trace unflushed]; exact Hun).
    cbn [fst snd emitted trace stdout_lines]. now rewrite Hout.
  - intros s Hin. now apply running_max_upper.
  - now intros ->.
  - now apply running_max_is_max.
  - intros m0 mx raw w0 st' w'. apply score_frame_monotone.
Qed.

(** ** Decision Policy of the listener *)

Section Listener.

Context (sc : Scorer).

(** Run the loop body and split on the case of the step relation. *)
Ltac listen_cases name st raw w :=
  let m := fresh "m" in
  let lw := fresh "lw" in
  let Hs := fresh "Hs" in
  destruct st as [m lw];
  pose proof (listen_frame_step sc name m lw raw w) as Hs;
  destruct (listen_frame sc name (m, lw) raw w) as [? ?];
  cbn [fst snd] in Hs; destruct Hs; wsimpl.

Lemma listen_loop_justified name reads st w :
  wakes_justified name (trace w) ->
  wakes_justified name (trace (snd (listen_loop sc name reads st w))).
Proof.
  intros Hw. rewrite listen_loop_read_loop.
  pose proof (read_loop_inv (listen_frame sc name)
    (fun _ w' => wakes_justified name (trace w'))
    (fun w' => wakes_justified name (trace w'))) as Hinv.
  specialize (Hinv (fun _ _ _ H => H)).
  assert (Hbody : forall st0 raw w0,
    wakes_justified name (trace w0) ->
    match listen_frame sc name st0 raw w0 with
    | (Ok _, w') | (Raise _, w') => wakes_justified name (trace w')
    end).
  { intros st0 raw w0 H0. listen_cases name st0 raw w0;
      cbn [wakes_justified]; try exact H0.
    split; [|exact H0]. split; [reflexivity|]. eauto 10. }
  specialize (Hinv Hbody (fun _ _ H => H) reads st w Hw).
  destruct (read_loop (listen_frame sc name) reads st w) as [[st'|e] w']; exact Hinv.
Qed.

(** A frame whose score is below the threshold puts nothing on stdout and
    leaves [last_wake] as it is. *)
Lemma listen_frame_below name m lw raw w samples pred m' :
  np_frombuffer_int16 raw = Ok samples ->
  model_predict sc m (normalize samples) = (Ok pred, m') ->
  dict_get pred name 0 < threshold ->
  let r := listen_frame sc name (m, lw) raw w in
  stdout_lines (trace (snd r)) = stdout_lines (trace w) /\
  forall st', fst r = Ok st' -> snd st' = lw.
Proof.
  intros Hbuf Hp Hlow. cbv zeta.
  pose proof (listen_frame_step sc name m lw raw w) as Hs.
  destruct (listen_frame sc name (m, lw) raw w) as [r w']. cbn [fst snd] in *.
  destruct Hs as [e Hb|s Hb Hn|s e m1 Hb Hn Hp1|s p m1 Hb Hn Hp1 Hlt
                 |s p m1 Hb Hn Hp1 Hge Hdb|s p m1 Hb Hn Hp1 Hge Hdb Hroom
                 |s p m1 room Hb Hn Hp1 Hge Hdb Hroom];
    rewrite Hbuf in Hb; try discriminate; injection Hb as <-;
    try (rewrite Hp in Hp1; first [discriminate | injection Hp1 as <- <-]);
    try (exfalso; now apply (Qlt_not_le _ _ Hlow)).
  - split; [reflexivity|]. now intros st' [= <-].
  - split; [reflexivity|]. now intros st' [= <-].
Qed.

(** What a pass of the loop body does to [last_wake]. *)
Lemma listen_frame_last_wake name m lw raw w m' lw' w' :
  listen_frame sc name (m, lw) raw w = (Ok (m', lw'), w') ->
  (lw' = lw /\ stdout_lines (trace w') = stdout_lines (trace w)) \/
  (lw' = clock w (Datatypes.S (ticks w)) /\
   debounce_seconds <= clock w (ticks w) - lw /\
   stdout_lines (trace w') = stdout_lines (trace w) ++ ["WAKE"%string] /\
   exists ev, trace w' = EvStdout "WAKE" :: EvClock lw'
                         :: EvClock (clock w (ticks w)) :: ev :: trace w).
Proof.
  intros H. pose proof (listen_frame_step sc name m lw raw w) as Hs.
  rewrite H in Hs. cbn [fst snd] in Hs.
  inversion Hs; subst; wsimpl; cbn [stdout_lines]; eauto 10.
Qed.

Lemma debounce_inv_read lw w k : debounce_inv lw w -> debounce_inv lw (log (EvRead k) w).
Proof. intros H. exact H. Qed.

Lemma listen_frame_debounce st raw w :
  forall name, debounce_inv (snd st) w ->
  match listen_frame sc name st raw w with
  | (Ok st', w') => debounce_inv (snd st') w'
  | (Raise _, w') => debounce_ok (trace w')
  end.
Proof.
  intros name Hinv. pose proof Hinv as (Hmono & Hok & Hlast).
  listen_cases name st raw w; cbn [snd] in *;
    try exact Hinv; try exact Hok.
  (* the wake event *)
  unfold debounce_inv, debounce_ok in *. wsimpl.
  cbn [wake_stamps stdout_lines spaced].
  destruct Hok as [Hsp Hlen].
  split; [exact Hmono|]. split; [|reflexivity].
  split.
  - split; [|exact Hsp].
    destruct (wake_stamps (trace w)) as [|b l]; [exact I|]. subst b.
    pose proof (Hmono (ticks w)). lra.
  - rewrite length_app. cbn [length]. lia.
Qed.

Lemma listen_loop_debounce name reads st w :
  debounce_inv (snd st) w ->
  debounce_ok (trace (snd (listen_loop sc name reads st w))).
Proof.
  intros H. rewrite listen_loop_read_loop.
  pose proof (read_loop_inv (listen_frame sc name)
    (fun st' w' => debounce_inv (snd st') w')
    (fun w' => debounce_ok (trace w'))) as Hinv.
  specialize (Hinv (fun st' w' k H' => debounce_inv_read (snd st') w' k H')).
  specialize (Hinv (fun st0 raw w0 H0 => listen_frame_debounce st0 raw w0 name H0)).
  specialize (Hinv (fun _ _ H' => proj1 (proj2 H')) reads st w H).
  destruct (read_loop (listen_frame sc name) reads st w) as [[st'|e] w'];
    [apply Hinv | exact Hinv].
Qed.

(** One pass of the listener loop on a complete frame that the model
    scores, with stdout open: the decision table. *)
Lemma listen_frame_scored name m lw raw w pred m' :
  length raw = chunk_bytes ->
  model_predict sc m (normalize (int16_pairs raw)) = (Ok pred, m') ->
  stdout_room w <> Some O ->
  let w1 := log (EvPredict (normalize (int16_pairs raw)) (Ok pred)) w in
  listen_frame sc name (m, lw) raw w
  = if Qle_bool threshold (dict_get pred name 0) then
      if Qle_bool debounce_seconds (clock w (ticks w) - lw) then
        (Ok (m', clock w (S (ticks w))),
         emitted "WAKE" (option_map Nat.pred (stdout_room w)) (tick (tick w1)))
      else (Ok (m', lw), tick w1)
    else (Ok (m', lw), w1).
Proof.
  intros Hlen Hp Hroom. destruct (np_frombuffer_full raw Hlen) as [Hbuf Hn].
  unfold listen_frame, bind, lift, ret, predict, time_time, print_stdout.
  rewrite Hbuf, Hn, Nat.eqb_refl, Hp. wsimpl.
  destruct (Qle_bool threshold (dict_get pred name 0)); wsimpl; [|reflexivity].
  destruct (Qle_bool debounce_seconds (clock w (ticks w) - lw)); wsimpl;
    [|reflexivity].
  destruct (stdout_room w) as [[|k]|]; wsimpl; [congruence|reflexivity..].
Qed.

End Listener.

(** C4: every [WAKE] on stdout follows a prediction whose active-keyword
    score (0.0 for a missing keyword) is at least 0.5; and a frame whose
    score is strictly below 0.5 puts nothing on stdout and leaves
    [last_wake] as it is. *)
Theorem wake_needs_threshold (sc : Scorer) (argv : list string) (path : string)
    (m : model sc) (stdin : list read_event) (w : world) :
  model_path argv = Some path ->
  Model_new sc path = Ok m ->
  wakes_justified (listener_keyword sc m) (trace w) ->
  wakes_justified (listener_keyword sc m)
    (trace (snd (wake_listener sc argv (Ok tt) stdin w))) /\
  (forall name m0 lw raw w0 samples pred m',
     np_frombuffer_int16 raw = Ok samples ->
     model_predict sc m0 (normalize samples) = (Ok pred, m') ->
     dict_get pred name 0 < 1 # 2 ->
     let r := listen_frame sc name (m0, lw) raw w0 in
     stdout_lines (trace (snd r)) = stdout_lines (trace w0) /\
     forall st', fst r = Ok st' -> snd st' = lw).
Proof.
  intros Hpath Hload Hw. split.
  - apply (listener_final sc
             (fun w' => wakes_justified (listener_keyword sc m) (trace w'))
             argv path m stdin w); auto.
    now apply listen_loop_justified.
  - intros name m0 lw raw w0 samples pred m'.
    apply listen_frame_below.
Qed.

(** C3: with a clock that does not run backwards, the stamps of any two
    consecutive [WAKE] lines of a run of the listener are at least 2.5
    seconds apart, whatever the frames in between score, and every line
    on stdout has such a stamp; [last_wake] changes exactly in the pass
    that emits [WAKE], to the clock reading taken just before the line
    goes out. *)
Theorem debounce_gap (sc : Scorer) (argv : list string) (imports : result unit)
    (stdin : list read_event) (w : world) :
  (forall n, clock w n <= clock w (S n)) ->
  trace w = [] ->
  (let tr := trace (snd (wake_listener sc argv imports stdin w)) in
   spaced (5 # 2) (wake_stamps tr) /\
   length (wake_stamps tr) = length (stdout_lines tr)) /\
  (forall name m lw raw w0 m' lw' w',
     listen_frame sc name (m, lw) raw w0 = (Ok (m', lw'), w') ->
     (lw' = lw /\ stdout_lines (trace w') = stdout_lines (trace w0)) \/
     (lw' = clock w0 (S (ticks w0)) /\
      5 # 2 <= clock w0 (ticks w0) - lw /\
      stdout_lines (trace w') = stdout_lines (trace w0) ++ ["WAKE"%string] /\
      exists ev, trace w' = EvStdout "WAKE" :: EvClock lw'
                            :: EvClock (clock w0 (ticks w0)) :: ev :: trace w0)).
Proof.
  intros Hmono Hfresh. split; [|intros *; apply listen_frame_last_wake].
  cbv zeta. change (debounce_ok (trace (snd (wake_listener sc argv imports stdin w)))).
  assert (H0 : debounce_ok (trace w)) by (rewrite Hfresh; repeat split).
  apply (listener_final_any sc (fun w' => debounce_ok (trace w'))); auto.
  intros name m. apply listen_loop_debounce. cbn [snd]. repeat split;
    [exact Hmono | rewrite Hfresh; exact I | rewrite Hfresh; reflexivity
    | rewrite Hfresh; exact I].
Qed.

(** ** The first wake event *)

Section FirstWake.

Context (sc : Scorer).
Variable name : string.

Lemma frame_scores_length : forall frames m scores,
  frame_scores sc name m frames = Some scores -> length scores = length frames.
Proof.
  induction frames as [|f frames IH]; intros m scores H; cbn [frame_scores] in H.
  - now injection H as <-.
  - destruct (model_predict sc m (normalize (int16_pairs f))) as [[pred|e] m1];
      [|discriminate].
    destruct (frame_scores sc name m1 frames) as [l|] eqn:Hl; [|discriminate].
    cbn [option_map] in H. injection H as <-. cbn [length]. f_equal. now apply IH with m1.
Qed.

(** The listener loop only adds to the trace. *)
Lemma listen_loop_trace_extends reads st w :
  exists newer, trace (snd (listen_loop sc name reads st w)) = newer ++ trace w.
Proof.
  rewrite listen_loop_read_loop.
  set (P := fun w' : world => exists newer, trace w' = newer ++ trace w).
  pose proof (read_loop_inv (listen_frame sc name) (fun _ => P) P) as Hinv.
  assert (Hread : forall (st0 : model sc * Q) w0 k, P w0 -> P (log (EvRead k) w0)).
  { intros _ w0 k [newer Hk]. exists (EvRead k :: newer). cbn [log trace].
    now rewrite Hk. }
  assert (Hbody : forall st0 raw w0, P w0 ->
    match listen_frame sc name st0 raw w0 with
    | (Ok _, w') | (Raise _, w') => P w'
    end).
  { intros [m lw] raw w0 [newer Hk].
    pose proof (listen_frame_step sc name m lw raw w0) as Hs.
    destruct (listen_frame sc name (m, lw) raw w0) as [r w']. cbn [fst snd] in Hs.
    destruct Hs; unfold P; wsimpl; rewrite ?Hk;
      repeat match goal with
             | |- exists l, ?e :: ?t = _ => 
                 let H := fresh in
                 assert (H : exists l, t = l ++ trace w);
                 [|destruct H as [? ->]; eexists (e :: _); reflexivity]
             end; now exists newer. }
  assert (HP : P w) by now exists [].
  specialize (Hinv Hread Hbody (fun _ _ H => H) reads st w HP).
  destruct (read_loop (listen_frame sc name) reads st w) as [[st'|e] w']; exact Hinv.
Qed.

(** The listener loop through frames that score below the threshold:
    no clock reading, no line, and then the loop is at the next frame. *)
Lemma listen_loop_quiet raw rest lw : forall quiet m w scores s,
  List.Forall (fun f => length f = chunk_bytes) quiet ->
  frame_scores sc name m (quiet ++ [raw]) = Some (scores ++ [s]) ->
  List.Forall (fun x => x < threshold) scores ->
  stdout_room w <> Some O ->
  exists mk wk pred m',
    listen_loop sc name (map Ok quiet ++ Ok raw :: rest) (m, lw) w
    = listen_loop sc name (Ok raw :: rest) (mk, lw) wk /\
    ticks wk = ticks w /\ clock wk = clock w /\ stdout_room wk = stdout_room w /\
    stdout_lines (trace wk) = stdout_lines (trace w) /\
    unflushed (trace wk) = unflushed (trace w) /\
    predicted (trace wk)
    = predicted (trace w) ++ map (fun f => normalize (int16_pairs f)) quiet /\
    model_predict sc mk (normalize (int16_pairs raw)) = (Ok pred, m') /\
    dict_get pred name 0 = s.
Proof.
  induction quiet as [|f quiet IH]; intros m w scores s Hfull Hsc Hlow Hroom.
  - pose proof (frame_scores_length _ _ _ Hsc) as Hlen.
    rewrite length_app in Hlen. cbn [length app] in Hlen.
    destruct scores; [|cbn [length] in Hlen; lia].
    cbn [app frame_scores] in Hsc.
    destruct (model_predict sc m (normalize (int16_pairs raw))) as [[pred|e] m1] eqn:Hp;
      [|discriminate].
    cbn [option_map] in Hsc. injection Hsc as Hs.
    exists m, w, pred, m1. cbn [map app]. rewrite app_nil_r. repeat split; assumption.
  - pose proof (frame_scores_length _ _ _ Hsc) as Hlen.
    rewrite !length_app in Hlen. cbn [length app] in Hlen.
    destruct scores as [|x scores]; [cbn [length] in Hlen; lia|].
    inversion Hfull as [|? ? Hf Hrest]; subst.
    inversion Hlow as [|? ? Hx Hlow']; subst.
    cbn [app frame_scores] in Hsc.
    destruct (model_predict sc m (normalize (int16_pairs f))) as [[pred|e] m1] eqn:Hp;
      [|discriminate].
    destruct (frame_scores sc name m1 (quiet ++ [raw])) as [l|] eqn:Hl; [|discriminate].
    cbn [option_map] in Hsc. injection Hsc as Hx' Hl'. subst l.
    assert (Hroom1 : stdout_room (log (EvRead (length f)) w) <> Some O) by exact Hroom.
    assert (Hth : Qle_bool threshold (dict_get pred name 0) = false).
    { destruct (Qle_bool threshold (dict_get pred name 0)) eqn:E; [|reflexivity].
      apply Qle_bool_iff in E. rewrite Hx' in E. exfalso. now apply (Qlt_not_le _ _ Hx). }
    destruct (IH m1 (log (EvPredict (normalize (int16_pairs f)) (Ok pred))
                       (log (EvRead (length f)) w)) scores s Hrest Hl Hlow' Hroom)
      as (mk & wk & pk & m' & Hrun & Ht & Hc & Hr & Ho & Hu & Hpr & Hpk & Hs).
    exists mk, wk, pk, m'.
    split.
    { cbn [map app listen_loop]. rewrite (full_frame_enters f Hf). unfold bind.
      rewrite (listen_frame_scored sc name m lw f _ pred m1 Hf Hp Hroom1), Hth.
      exact Hrun. }
    repeat split; try assumption.
    rewrite Hpr. cbn [log trace predicted map]. now rewrite <- app_assoc.
Qed.

End FirstWake.

(** C10: [last_wake] starts at the number 0.0. When the frames of a run
    score below 0.5 up to a frame that reaches it, stdout is open and the
    clock then reads at least 2.5, the prediction for that frame is
    followed at once by the two clock readings and the line [WAKE], the
    first line of the run: the debounce test does not hold back the first
    wake event. It is the number 0.0 that is compared, not a sentinel:
    were the clock to read less than 2.5 at that frame, the last of the
    stream, the run would end without any line. *)
Theorem first_wake_not_suppressed (sc : Scorer) (argv : list string)
    (path : string) (m : model sc) (quiet : list (list Byte.byte))
    (raw : list Byte.byte) (rest : list read_event) (scores : list Q) (s : Q)
    (w : world) :
  model_path argv = Some path ->
  Model_new sc path = Ok m ->
  stdout_room w <> Some O ->
  List.Forall (fun f => length f = 2560%nat) quiet ->
  length raw = 2560%nat ->
  frame_scores sc (listener_keyword sc m) m (quiet ++ [raw]) = Some (scores ++ [s]) ->
  List.Forall (fun x => x < 1 # 2) scores ->
  1 # 2 <= s ->
  (5 # 2 <= clock w (ticks w) ->
   exists pred older newer,
     trace (snd (wake_listener sc argv (Ok tt) (map Ok quiet ++ Ok raw :: rest) w))
     = newer ++ EvStdout "WAKE" :: EvClock (clock w (S (ticks w)))
             :: EvClock (clock w (ticks w))
             :: EvPredict (normalize (int16_pairs raw)) (Ok pred) :: older /\
     dict_get pred (listener_keyword sc m) 0 = s /\
     stdout_lines older = stdout_lines (trace w) /\
     predicted older
     = predicted (trace w) ++ map (fun f => normalize (int16_pairs f)) quiet) /\
  (clock w (ticks w) < 5 # 2 ->
   let r := wake_listener sc argv (Ok tt) (map Ok quiet ++ [Ok raw]) w in
   fst r = Exit 0 /\
   stdout_lines (trace (snd r)) = stdout_lines (trace w)).
Proof.
  intros Hpath Hload Hroom Hfull Hraw Hsc Hlow Hs.
  set (name := listener_keyword sc m) in *.
  split.
  - intros Hclk.
    destruct (listen_loop_quiet sc name raw rest 0 quiet m w scores s
                Hfull Hsc Hlow Hroom)
      as (mk & wk & pred & m' & Hrun & Ht & Hc & Hr & Ho & Hu & Hpr & Hp & Hsp).
    exists pred, (EvRead (length raw) :: trace wk).
    assert (Hroomk : stdout_room (log (EvRead (length raw)) wk) <> Some O)
      by (cbn [log stdout_room]; now rewrite Hr).
    assert (Hth : Qle_bool threshold (dict_get pred name 0) = true)
      by (apply Qle_bool_iff; now rewrite Hsp).
    assert (Hdb : Qle_bool debounce_seconds (clock wk (ticks wk) - 0) = true).
    { apply Qle_bool_iff. rewrite Hc, Ht. unfold debounce_seconds. lra. }
    apply (listener_final sc
      (fun w' => exists newer,
         trace w' = newer ++ EvStdout "WAKE" :: EvClock (clock w (S (ticks w)))
                    :: EvClock (clock w (ticks w))
                    :: EvPredict (normalize (int16_pairs raw)) (Ok pred)
                    :: EvRead (length raw) :: trace wk /\
         dict_get pred name 0 = s /\
         stdout_lines (EvRead (length raw) :: trace wk) = stdout_lines (trace w) /\
         predicted (EvRead (length raw) :: trace wk)
         = predicted (trace w) ++ map (fun f => normalize (int16_pairs f)) quiet)
      argv path m _ w).
    + intros w0 line (newer & Htr & H). exists (EvStderr line :: newer).
      cbn [log trace]. rewrite Htr. now split.
    + intros w0 e (newer & Htr & H). exists (EvIgnored e :: newer).
      cbn [log trace]. rewrite Htr. now split.
    + exact Hpath.
    + exact Hload.
    + fold name. rewrite Hrun. cbn [listen_loop].
      rewrite (full_frame_enters raw Hraw). unfold bind.
      rewrite (listen_frame_scored sc name mk 0 raw _ pred m' Hraw Hp Hroomk).
      rewrite Hth. cbn [log clock ticks]. rewrite Hdb.
      match goal with
      | |- context [listen_loop sc name rest ?st ?w2] =>
          destruct (listen_loop_trace_extends sc name rest st w2) as [newer Hnew]
      end.
      exists newer. rewrite Hnew. cbn [emitted tick log trace clock ticks].
      rewrite Hc, Ht. cbn [stdout_lines predicted]. repeat split; assumption.
  - intros Hclk. cbv zeta.
    destruct (listen_loop_quiet sc name raw [] 0 quiet m w scores s
                Hfull Hsc Hlow Hroom)
      as (mk & wk & pred & m' & Hrun & Ht & Hc & Hr & Ho & Hu & Hpr & Hp & Hsp).
    assert (Hroomk : stdout_room (log (EvRead (length raw)) wk) <> Some O)
      by (cbn [log stdout_room]; now rewrite Hr).
    assert (Hth : Qle_bool threshold (dict_get pred name 0) = true)
      by (apply Qle_bool_iff; now rewrite Hsp).
    assert (Hdb : Qle_bool debounce_seconds (clock wk (ticks wk) - 0) = false).
    { destruct (Qle_bool debounce_seconds (clock wk (ticks wk) - 0)) eqn:E;
        [|reflexivity].
      apply Qle_bool_iff in E. rewrite Hc, Ht in E. unfold debounce_seconds in E.
      exfalso. lra. }
    rewrite (listener_run sc argv path m _ w Hpath Hload). fold name.
    rewrite Hrun. cbn [listen_loop].
    rewrite (full_frame_enters raw Hraw). unfold bind.
    rewrite (listen_frame_scored sc name mk 0 raw _ pred m' Hraw Hp Hroomk).
    rewrite Hth. cbn [log clock ticks]. rewrite Hdb.
    rewrite shutdown_clean by (cbn [tick log trace unflushed]; exact Hu).
    cbn [fst snd tick log trace stdout_lines]. split; [reflexivity | exact Ho].
Qed.

(** * The scripts at work: sample runs *)

Lemma steady_clock_monotone t0 dt n :
  (0 <= dt)%Z -> steady_clock t0 dt n <= steady_clock t0 dt (S n).
Proof. intros H. unfold steady_clock, Qle, inject_Z. cbn [Qnum Qden]. lia. Defined.

Lemma steady_clock_from t0 dt n :
  (0 <= dt)%Z -> inject_Z t0 <= steady_clock t0 dt n.
Proof. intros H. unfold steady_clock, Qle, inject_Z. cbn [Qnum Qden]. lia. Defined.

(** Scenario B, with a clock that advances by two seconds at each
    reading: four frames scoring 0.6, 0.8, 0.2 and 1.0 give two wake
    events. *)
Example listener_sample_run :
  let r := wake_listener
             (scripted None [says (3 # 5); says (4 # 5); says (1 # 5); says 1])
             listener_argv (Ok tt)
             (reads_of (silence ++ silence ++ silence ++ silence ++ half_frame))
             (fresh_world (steady_clock 100 2)) in
  fst r = Exit 0 /\
  stdout_lines (trace (snd r)) = ["WAKE"; "WAKE"]%string /\
  wake_stamps (trace (snd r)) = [inject_Z 108; inject_Z 102].
Proof. vm_compute. repeat split. Qed.

Example score_sample_run :
  let r := wake_score_stdin (scripted None [says (3 # 5); says (1 # 5)]) repr_tenths
             score_argv (Ok tt) (reads_of (silence ++ silence ++ half_frame))
             (fresh_world (steady_clock 100 2)) in
  fst r = Exit 0 /\ stdout_lines (trace (snd r)) = ["MAX 0.6"%string].
Proof. vm_compute. repeat split. Qed.

(** A consumer that is gone: the listener swallows the BrokenPipeError of
    its first [WAKE], which stays in the buffer; the shutdown flush fails
    again, the interpreter complains and the status is 120. *)
Example listener_broken_pipe_run :
  let r := wake_listener (scripted None [says (3 # 5); says (4 # 5)])
             listener_argv (Ok tt) (reads_of (silence ++ silence))
             (deaf_world (steady_clock 100 2)) in
  fst r = Exit 120 /\
  stdout_lines (trace (snd r)) = [] /\
  stderr_lines (trace (snd r)) = [] /\
  reads_done (trace (snd r)) = 1%nat /\
  exists rest, trace (snd r)
               = EvIgnored BrokenPipeError :: EvUnflushed "WAKE" :: rest.
Proof. vm_compute. repeat split. eexists. reflexivity. Qed.



Lemma model_load_failure_witness :
  let sc := scripted (Some (RuntimeError "No such file")) [] in
  model_path listener_argv = Some "hey_jeeves.onnx"%string /\
  Model_new sc "hey_jeeves.onnx" = Raise (RuntimeError "No such file") /\
  wake_listener sc listener_argv (Ok tt) (reads_of silence)
    (fresh_world (steady_clock 100 2))
  = (Exit 1,
     log (EvStderr "WAKE_LISTENER_ERROR: failed to load model: No such file")
         (fresh_world (steady_clock 100 2))).
Proof.
  cbv zeta. split; [reflexivity|]. split; [reflexivity|].
  apply (model_load_failure (scripted (Some (RuntimeError "No such file")) [])
           repr_tenths listener_argv "hey_jeeves.onnx"
           (RuntimeError "No such file") (reads_of silence)
           (fresh_world (steady_clock 100 2)) eq_refl eq_refl eq_refl).
Defined.

(** The claim of C7 fails in scoring mode: an interrupt during the read
    leaves the process uncaught. *)
Lemma interruption_uncaught_in_scoring :
  wake_score_stdin (scripted None []) repr_tenths score_argv (Ok tt)
    [Raise KeyboardInterrupt] (fresh_world (steady_clock 100 2))
  = (Crash KeyboardInterrupt, fresh_world (steady_clock 100 2)).
Proof. reflexivity. Qed.

Lemma interruption_handling_witness :
  let w := fresh_world (steady_clock 100 2) in
  model_path listener_argv = Some "hey_jeeves.onnx"%string /\
  listen_loop (scripted None []) "hey_jeeves" [Raise KeyboardInterrupt] ([], 0) w
  = (Raise KeyboardInterrupt, w) /\
  wake_listener (scripted None []) listener_argv (Ok tt) [Raise KeyboardInterrupt] w
  = (Exit 0, w).
Proof.
  cbv zeta. split; [reflexivity|]. split; [reflexivity|].
  apply (interruption_handling (scripted None []) repr_tenths listener_argv
           "hey_jeeves.onnx" [] [Raise KeyboardInterrupt]
           (fresh_world (steady_clock 100 2)) (fresh_world (steady_clock 100 2))
           eq_refl eq_refl).
  reflexivity.
Defined.




Lemma partial_block_discarded_witness :
  (length (silence ++ half_frame) mod chunk_bytes)%nat <> O /\
  exists frames tail,
    silence ++ half_frame = concat frames ++ tail /\
    reads_of (silence ++ half_frame) = map Ok frames ++ [Ok tail] /\
    same_run (score_loop (scripted None []) "hey_jeeves"
                (reads_of (silence ++ half_frame)) ([], 0)
                (fresh_world (steady_clock 100 2)))
             (score_loop (scripted None []) "hey_jeeves"
                (reads_of (concat frames)) ([], 0)
                (fresh_world (steady_clock 100 2))).
Proof.
  assert (H : (length (silence ++ half_frame) mod chunk_bytes)%nat <> O)
    by (vm_compute; discriminate).
  split; [exact H|].
  destruct (proj2 (proj2 (partial_block_discarded (scripted None [])))
              (silence ++ half_frame) H)
    as (frames & tail & Hbs & _ & _ & Hreads & _ & Hsame).
  exists frames, tail. split; [exact Hbs|]. split; [exact Hreads|].
  apply (Hsame "hey_jeeves"%string ([], 0) (fresh_world (steady_clock 100 2))).
Defined.

Lemma running_maximum_witness :
  let sc := scripted None [says (3 # 5); says (1 # 5)] in
  let bs := silence ++ silence ++ half_frame in
  let w := fresh_world (steady_clock 100 2) in
  frame_scores sc "hey_jeeves" [says (3 # 5); says (1 # 5)] (full_frames bs)
  = Some [3 # 5; 1 # 5] /\
  List.Forall (fun s => 0 <= s) [3 # 5; 1 # 5] /\
  exists v,
    fst (wake_score_stdin sc repr_tenths score_argv (Ok tt) (reads_of bs) w) = Exit 0 /\
    stdout_lines (trace (snd (wake_score_stdin sc repr_tenths score_argv (Ok tt)
                                (reads_of bs) w)))
    = ["MAX " +:+ repr_tenths v] /\
    (forall s, List.In s [3 # 5; 1 # 5] -> s <= v).
Proof.
  cbv zeta.
  assert (Hsc : frame_scores (scripted None [says (3 # 5); says (1 # 5)]) "hey_jeeves"
                  [says (3 # 5); says (1 # 5)]
                  (full_frames (silence ++ silence ++ half_frame))
                = Some [3 # 5; 1 # 5]) by (vm_compute; reflexivity).
  assert (Hpos : List.Forall (fun s => 0 <= s) [3 # 5; 1 # 5])
    by (repeat constructor; unfold Qle; cbn; lia).
  split; [exact Hsc|]. split; [exact Hpos|].
  destruct (running_maximum (scripted None [says (3 # 5); says (1 # 5)]) repr_tenths
              score_argv "hey_jeeves.onnx" [says (3 # 5); says (1 # 5)] "hey_jeeves" []
              (silence ++ silence ++ half_frame) [3 # 5; 1 # 5]
              (fresh_world (steady_clock 100 2)) eq_refl eq_refl eq_refl
              ltac:(discriminate) Hsc Hpos)
    as (v & [Hexit Hout] & Hup & _).
  exists v. split; [exact Hexit|]. split; [exact Hout | exact Hup].
Defined.

Lemma wake_needs_threshold_witness :
  let sc := scripted None [says (3 # 5); says (1 # 5)] in
  let w := fresh_world (steady_clock 100 2) in
  wakes_justified "hey_jeeves" (trace w) /\
  wakes_justified "hey_jeeves"
    (trace (snd (wake_listener sc listener_argv (Ok tt)
                   (reads_of (silence ++ silence)) w))).
Proof.
  cbv zeta. split; [exact I|].
  apply (wake_needs_threshold (scripted None [says (3 # 5); says (1 # 5)])
           listener_argv "hey_jeeves.onnx" [says (3 # 5); says (1 # 5)]
           (reads_of (silence ++ silence)) (fresh_world (steady_clock 100 2))
           eq_refl eq_refl I).
Defined.

Lemma debounce_gap_witness :
  let sc := scripted None [says (3 # 5); says (4 # 5); says (1 # 5); says 1] in
  let w := fresh_world (steady_clock 100 2) in
  let tr := trace (snd (wake_listener sc listener_argv (Ok tt)
                          (reads_of (silence ++ silence ++ silence ++ silence)) w)) in
  (forall n, clock w n <= clock w (S n)) /\
  spaced (5 # 2) (wake_stamps tr) /\
  length (wake_stamps tr) = length (stdout_lines tr).
Proof.
  cbv zeta.
  assert (Hmono : forall n, clock (fresh_world (steady_clock 100 2)) n
                            <= clock (fresh_world (steady_clock 100 2)) (S n)).
  { intros n. apply steady_clock_monotone. lia. }
  split; [exact Hmono|].
  apply (debounce_gap
           (scripted None [says (3 # 5); says (4 # 5); says (1 # 5); says 1])
           listener_argv (Ok tt)
           (reads_of (silence ++ silence ++ silence ++ silence))
           (fresh_world (steady_clock 100 2)) Hmono eq_refl).
Defined.

Lemma first_wake_not_suppressed_witness :
  let sc := scripted None [says (1 # 5); says (3 # 5)] in
  let w := fresh_world (steady_clock 100 2) in
  frame_scores sc "hey_jeeves" [says (1 # 5); says (3 # 5)] ([silence] ++ [silence])
  = Some ([1 # 5] ++ [3 # 5]) /\
  List.Forall (fun x => x < 1 # 2) [1 # 5] /\
  1 # 2 <= 3 # 5 /\
  5 # 2 <= clock w (ticks w) /\
  exists pred older newer,
    trace (snd (wake_listener sc listener_argv (Ok tt)
                  (map Ok [silence] ++ Ok silence :: reads_of half_frame) w))
    = newer ++ EvStdout "WAKE" :: EvClock (clock w 1%nat) :: EvClock (clock w 0%nat)
            :: EvPredict (normalize (int16_pairs silence)) (Ok pred) :: older /\
    stdout_lines older = [].
Proof.
  cbv zeta.
  assert (Hsc : frame_scores (scripted None [says (1 # 5); says (3 # 5)]) "hey_jeeves"
                  [says (1 # 5); says (3 # 5)] ([silence] ++ [silence])
                = Some ([1 # 5] ++ [3 # 5])) by (vm_compute; reflexivity).
  assert (Hlow : List.Forall (fun x => x < 1 # 2) [1 # 5])
    by (repeat constructor).
  assert (Hs : 1 # 2 <= 3 # 5) by (unfold Qle; cbn; lia).
  assert (Hclk : 5 # 2 <= clock (fresh_world (steady_clock 100 2))
                            (ticks (fresh_world (steady_clock 100 2))))
    by (apply Qle_bool_iff; vm_compute; reflexivity).
  assert (Hfull : List.Forall (fun f : list Byte.byte => length f = 2560%nat) [silence])
    by (repeat constructor).
  do 4 (split; [assumption|]).
  destruct (proj1 (first_wake_not_suppressed
                     (scripted None [says (1 # 5); says (3 # 5)]) listener_argv
                     "hey_jeeves.onnx" [says (1 # 5); says (3 # 5)] [silence] silence
                     (reads_of half_frame) [1 # 5] (3 # 5)
                     (fresh_world (steady_clock 100 2)) eq_refl eq_refl
                     ltac:(discriminate) Hfull eq_refl Hsc Hlow Hs) Hclk)
    as (pred & older & newer & Htr & _ & Hout & _).
  exists pred, older, newer. split; [exact Htr | exact Hout].
Defined.

(** * Further properties of the two scripts *)

(** ** Command line, imports and keyword *)

(** An empty string as model path counts as no path ([if not
    model_path]): both scripts exit with status 1 without reading, the
    listener with a diagnostic on stderr, the scoring script with the line
    [MAX 0.0] on stdout. *)
Theorem empty_model_path (sc : Scorer) (float_repr : Q -> string)
    (argv : list string) (imports : result unit) (stdin : list read_event)
    (w : world) :
  argv !! 1%nat = Some ""%string ->
  (let r := wake_listener sc argv imports stdin w in
   fst r = Exit 1 /\
   stdout_lines (trace (snd r)) = stdout_lines (trace w) /\
   reads_done (trace (snd r)) = reads_done (trace w) /\
   exists line, stderr_lines (trace (snd r)) = stderr_lines (trace w) ++ [line]) /\
  (imports = Ok tt -> stdout_room w <> Some O ->
   let r := wake_score_stdin sc float_repr argv imports stdin w in
   fst r = Exit 1 /\
   stdout_lines (trace (snd r)) = stdout_lines (trace w) ++ ["MAX 0.0"%string] /\
   reads_done (trace (snd r)) = reads_done (trace w)).
Proof.
  intros Harg.
  assert (Hpath : model_path argv = None) by (unfold model_path; now rewrite Harg).
  split.
  - destruct (listener_no_path sc argv imports stdin w Hpath) as [line Hrun].
    cbv zeta. rewrite Hrun. repeat split. now exists line.
  - intros -> Hroom.
    destruct (score_no_path sc float_repr argv stdin w Hpath Hroom) as [room Hrun].
    cbv zeta. rewrite Hrun. repeat split.
Qed.

(** When the imports fail: the listener turns an ImportError into a
    diagnostic on stderr and status 1, and lets any other exception
    through; the scoring script, whose imports are at module level, ends
    uncaught whatever its arguments, without the line [MAX 0.0]. Nothing
    is read in either case. *)
Theorem import_failure (sc : Scorer) (float_repr : Q -> string)
    (argv : list string) (path : string) (e : exn) (stdin : list read_event)
    (w : world) :
  model_path argv = Some path ->
  is_Exception e = true ->
  (is_ImportError e = true ->
   wake_listener sc argv (Raise e) stdin w
   = (Exit 1,
      log (EvStderr "WAKE_LISTENER_ERROR: install openwakeword and numpy: pip install openwakeword onnxruntime numpy") w)) /\
  (is_ImportError e = false ->
   wake_listener sc argv (Raise e) stdin w = (Crash e, w)) /\
  (forall argv', wake_score_stdin sc float_repr argv' (Raise e) stdin w = (Crash e, w)).
Proof.
  intros Hpath He. split; [|split].
  - intros Himp. unfold wake_listener, run_process, listener_main, try_except, bind, lift.
    rewrite Hpath, Himp. unfold print_stderr, sys_exit, raise. cbn [ending].
    apply shutdown_clean. reflexivity.
  - intros Himp. unfold wake_listener, run_process, listener_main, try_except, bind, lift.
    rewrite Hpath, Himp.
    destruct e; try discriminate; cbn [ending]; apply shutdown_clean; reflexivity.
  - intros argv'. unfold wake_score_stdin, run_process, bind, lift.
    destruct e; try discriminate; cbn [ending]; apply shutdown_clean; reflexivity.
Qed.

(** A model without any keyword: the scoring script ends uncaught with
    an IndexError before it reads or writes anything, while the listener
    watches the keyword [hey_jeeves]. *)
Theorem empty_model_keys (sc : Scorer) (float_repr : Q -> string)
    (argv : list string) (path : string) (m : model sc)
    (stdin : list read_event) (w : world) :
  model_path argv = Some path ->
  Model_new sc path = Ok m ->
  model_keys sc m = [] ->
  wake_score_stdin sc float_repr argv (Ok tt) stdin w
  = (Crash (IndexError "list index out of range"), w) /\
  (wakes_justified "hey_jeeves" (trace w) ->
   wakes_justified "hey_jeeves"
     (trace (snd (wake_listener sc argv (Ok tt) stdin w)))).
Proof.
  intros Hpath Hload Hkeys. split.
  - unfold wake_score_stdin, run_process, score_main, try_except, bind, lift.
    rewrite Hpath, Hload, Hkeys. unfold raise. cbn [ending].
    apply shutdown_clean. reflexivity.
  - intros Hw.
    assert (Hname : listener_keyword sc m = "hey_jeeves"%string)
      by (unfold listener_keyword; now rewrite Hkeys).
    apply (listener_final sc (fun w' => wakes_justified "hey_jeeves" (trace w'))
             argv path m stdin w); auto.
    rewrite Hname. now apply listen_loop_justified.
Qed.

(** ** What the scripts never do *)

Lemma run_process_world p w :
  snd (run_process p w) = snd (p w) \/
  snd (run_process p w) = log (EvIgnored BrokenPipeError) (snd (p w)).
Proof.
  unfold run_process.
  match goal with |- context [shutdown w ?tw] =>
    replace (snd (p w)) with (snd tw) by (now destruct (p w));
    apply shutdown_world
  end.
Qed.

Section Footprint.

Context (sc : Scorer).

(** The scoring loop reads no clock. *)
Lemma score_loop_ticks name reads st w :
  ticks (snd (score_loop sc name reads st w)) = ticks w.
Proof.
  rewrite score_loop_read_loop.
  pose proof (read_loop_inv (score_frame sc name)
    (fun _ w' => ticks w' = ticks w) (fun w' => ticks w' = ticks w)) as Hinv.
  specialize (Hinv (fun _ _ _ H => H)).
  assert (Hbody : forall st0 raw w0, ticks w0 = ticks w ->
    match score_frame sc name st0 raw w0 with
    | (Ok _, w') | (Raise _, w') => ticks w' = ticks w
    end).
  { intros [m mx] raw w0 H0.
    pose proof (score_frame_step sc name m mx raw w0) as Hs.
    destruct (score_frame sc name (m, mx) raw w0) as [r w']. cbn [fst snd] in Hs.
    destruct Hs; exact H0. }
  specialize (Hinv Hbody (fun _ _ H => H) reads st w eq_refl).
  destruct (read_loop (score_frame sc name) reads st w) as [[st'|e] w']; exact Hinv.
Qed.

End Footprint.

(** Whatever its arguments, its input and the model do, the scoring
    script writes at most one line to stdout, a line that starts with
    [MAX], writes nothing to stderr itself and never reads the clock. *)
Theorem score_script_footprint (sc : Scorer) (float_repr : Q -> string)
    (argv : list string) (imports : result unit) (stdin : list read_event)
    (w : world) :
  let w' := snd (wake_score_stdin sc float_repr argv imports stdin w) in
  stderr_lines (trace w') = stderr_lines (trace w) /\
  ticks w' = ticks w /\
  (stdout_lines (trace w') = stdout_lines (trace w) \/
   exists value, stdout_lines (trace w')
                 = stdout_lines (trace w) ++ ["MAX " +:+ value]).
Proof.
  cbv zeta. unfold wake_score_stdin.
  match goal with |- context [run_process ?p w] =>
    assert (Hp : stderr_lines (trace (snd (p w))) = stderr_lines (trace w) /\
                 ticks (snd (p w)) = ticks w /\
                 (stdout_lines (trace (snd (p w))) = stdout_lines (trace w) \/
                  exists value, stdout_lines (trace (snd (p w)))
                                = stdout_lines (trace w) ++ ["MAX " +:+ value]));
    [|destruct (run_process_world p w) as [-> | ->]; exact Hp]
  end.
  unfold score_main, bind, lift, try_except, sys_exit, raise, ret, print_stdout.
  assert (Hfail : forall w0 : world,
    let w1 := snd (match stdout_room w0 with
                   | Some O => (Raise BrokenPipeError, log (EvUnflushed "MAX 0.0") w0)
                   | Some (S k) => (Ok tt, emitted "MAX 0.0" (Some k) w0)
                   | None => (Ok tt, emitted "MAX 0.0" None w0)
                   end : result unit * world) in
    stderr_lines (trace w1) = stderr_lines (trace w0) /\
    ticks w1 = ticks w0 /\
    (stdout_lines (trace w1) = stdout_lines (trace w0) \/
     exists value, stdout_lines (trace w1)
                   = stdout_lines (trace w0) ++ ["MAX " +:+ value])).
  { intros w0. destruct (stdout_room w0) as [[|k]|]; cbv zeta;
      cbn [snd emitted log trace ticks stdout_lines stderr_lines]; repeat split; auto;
      right; now exists "0.0"%string. }
  destruct imports as [[]|e]; [|cbn [snd]; auto].
  destruct (model_path argv) as [path|].
  2:{ specialize (Hfail w). destruct (stdout_room w) as [[|k]|]; exact Hfail. }
  destruct (Model_new sc path) as [m|e].
  2:{ destruct (is_Exception e); [|cbn [snd]; auto].
      specialize (Hfail w). destruct (stdout_room w) as [[|k]|]; exact Hfail. }
  destruct (model_keys sc m) as [|name ks]; [cbn [snd]; auto|].
  pose proof (score_loop_channels sc name stdin (m, 0) w) as (Ho & He & _).
  pose proof (score_loop_ticks sc name stdin (m, 0) w) as Ht.
  destruct (score_loop sc name stdin (m, 0) w) as [[st|e] wl]; cbn [snd] in *;
    [|auto].
  destruct (stdout_room wl) as [[|k]|];
    cbn [snd emitted log trace ticks stdout_lines stderr_lines];
    rewrite ?Ho, ?He, ?Ht; repeat split; auto;
    right; now exists (float_repr (snd st)).
Qed.


(** ** The lines of the listener *)

Lemma justified_count name : forall n tr,
  (length tr <= n)%nat -> wakes_justified name tr ->
  (length (stdout_lines tr) <= reaching name tr)%nat.
Proof.
  induction n as [|n IH]; intros tr Hlen Hj.
  - destruct tr; [cbn; lia | cbn [length] in Hlen; lia].
  - destruct tr as [|ev tr]; [cbn; lia|]. cbn [length] in Hlen.
    destruct ev as [k|f [pred|e]|t|line|line|line|e];
      cbn [wakes_justified stdout_lines reaching] in *;
      try (apply IH; [lia | exact Hj]).
    + destruct (Qle_bool threshold (dict_get pred name 0));
        [apply Nat.le_le_succ_r|]; apply IH; try lia; exact Hj.
    + destruct Hj as [[_ (s & c & f & pred & r' & -> & Hge)] Hj].
      cbn [wakes_justified stdout_lines reaching length] in *.
      apply Qle_bool_iff in Hge. rewrite Hge.
      rewrite length_app. cbn [length].
      specialize (IH r' ltac:(lia) Hj). lia.
Qed.

Section Lines.

Context (sc : Scorer).

(** The listener loop only ever adds [WAKE] lines to stdout. *)
Lemma listen_loop_only_wake name reads st w :
  exists k, stdout_lines (trace (snd (listen_loop sc name reads st w)))
            = stdout_lines (trace w) ++ repeat "WAKE"%string k.
Proof.
  rewrite listen_loop_read_loop.
  set (P := fun w' : world =>
    exists k, stdout_lines (trace w') = stdout_lines (trace w) ++ repeat "WAKE"%string k).
  pose proof (read_loop_inv (listen_frame sc name) (fun _ => P) P) as Hinv.
  specialize (Hinv (fun _ _ _ H => H)).
  assert (Hbody : forall st0 raw w0, P w0 ->
    match listen_frame sc name st0 raw w0 with
    | (Ok _, w') | (Raise _, w') => P w'
    end).
  { intros [m lw] raw w0 [k Hk].
    pose proof (listen_frame_step sc name m lw raw w0) as Hs.
    destruct (listen_frame sc name (m, lw) raw w0) as [r w']. cbn [fst snd] in Hs.
    destruct Hs; unfold P; wsimpl; cbn [stdout_lines]; try (now exists k).
    exists (S k). rewrite Hk, <- app_assoc. f_equal.
    symmetry. apply (repeat_cons k "WAKE"%string). }
  assert (HP : P w) by (exists O; cbn [repeat]; now rewrite app_nil_r).
  specialize (Hinv Hbody (fun _ _ H => H) reads st w HP).
  destruct (read_loop (listen_frame sc name) reads st w) as [[st'|e] w']; exact Hinv.
Qed.

End Lines.

(** Whatever happens, all the listener ever adds to stdout is a run of
    [WAKE] lines. *)
Theorem listener_stdout_only_wake (sc : Scorer) (argv : list string)
    (imports : result unit) (stdin : list read_event) (w : world) :
  exists k,
    stdout_lines (trace (snd (wake_listener sc argv imports stdin w)))
    = stdout_lines (trace w) ++ repeat "WAKE"%string k.
Proof.
  assert (H0 : exists k, stdout_lines (trace w)
                         = stdout_lines (trace w) ++ repeat "WAKE"%string k)
    by (exists O; cbn [repeat]; now rewrite app_nil_r).
  apply (listener_final_any sc
           (fun w' => exists k, stdout_lines (trace w')
                                = stdout_lines (trace w) ++ repeat "WAKE"%string k));
    auto.
  intros name m. apply listen_loop_only_wake.
Qed.

(** The listener writes at most one [WAKE] per prediction that reaches
    the threshold; a run in which no prediction reaches it leaves stdout
    empty. *)
Theorem one_wake_per_detection (sc : Scorer) (argv : list string) (path : string)
    (m : model sc) (stdin : list read_event) (w : world) :
  model_path argv = Some path ->
  Model_new sc path = Ok m ->
  trace w = [] ->
  let tr := trace (snd (wake_listener sc argv (Ok tt) stdin w)) in
  (length (stdout_lines tr) <= reaching (listener_keyword sc m) tr)%nat /\
  (reaching (listener_keyword sc m) tr = O -> stdout_lines tr = []).
Proof.
  intros Hpath Hload Hfresh. cbv zeta.
  assert (Hj : wakes_justified (listener_keyword sc m)
                 (trace (snd (wake_listener sc argv (Ok tt) stdin w)))).
  { apply (listener_final sc
             (fun w' => wakes_justified (listener_keyword sc m) (trace w'))
             argv path m stdin w); auto.
    apply listen_loop_justified. rewrite Hfresh. exact I. }
  pose proof (justified_count (listener_keyword sc m) _ _ (Nat.le_refl _) Hj) as Hle.
  split; [exact Hle|].
  intros Hz. rewrite Hz in Hle.
  destruct (stdout_lines (trace (snd (wake_listener sc argv (Ok tt) stdin w))));
    [reflexivity | cbn [length] in Hle; lia].
Qed.

(** The decision on a complete frame that the model scores, with stdout
    open, in a state the listener reaches under a clock that does not run
    backwards ([last_wake] still 0.0, or a reading of at least 2.5 that
    is not after the present one; there float64 subtraction decides as
    the exact one does): [WAKE] goes out, and [last_wake] becomes the
    next clock reading, exactly when the score is at least 0.5 and at
    least 2.5 seconds have passed since [last_wake]; otherwise nothing
    goes out and [last_wake] stays; below the threshold the clock is not
    even read. *)
Theorem wake_decision (sc : Scorer) (name : string) (m : model sc) (lw : Q)
    (raw : list Byte.byte) (w : world) (pred : ScoreMap) (m' : model sc) :
  length raw = 2560%nat ->
  model_predict sc m (normalize (int16_pairs raw)) = (Ok pred, m') ->
  stdout_room w <> Some O ->
  lw = 0 \/ (5 # 2 <= lw /\ lw <= clock w (ticks w)) ->
  let r := listen_frame sc name (m, lw) raw w in
  let score := dict_get pred name 0 in
  let now := clock w (ticks w) in
  (1 # 2 <= score /\ 5 # 2 <= now - lw ->
   fst r = Ok (m', clock w (S (ticks w))) /\
   stdout_lines (trace (snd r)) = stdout_lines (trace w) ++ ["WAKE"%string]) /\
  (~ (1 # 2 <= score /\ 5 # 2 <= now - lw) ->
   fst r = Ok (m', lw) /\
   stdout_lines (trace (snd r)) = stdout_lines (trace w)) /\
  (score < 1 # 2 -> ticks (snd r) = ticks w).
Proof.
  intros Hlen Hp Hroom _. cbv zeta.
  rewrite (listen_frame_scored sc name m lw raw w pred m' Hlen Hp Hroom).
  destruct (Qle_bool threshold (dict_get pred name 0)) eqn:Hth.
  - apply Qle_bool_iff in Hth.
    destruct (Qle_bool debounce_seconds (clock w (ticks w) - lw)) eqn:Hdb.
    + apply Qle_bool_iff in Hdb. split; [|split].
      * intros _. split; reflexivity.
      * intros Hn. exfalso. apply Hn. split; assumption.
      * intros Hlt. exfalso. now apply (Qlt_not_le _ _ Hlt).
    + apply Qle_bool_false in Hdb. split; [|split].
      * intros [_ Hge]. exfalso. now apply (Qlt_not_le _ _ Hdb).
      * intros _. split; reflexivity.
      * intros Hlt. exfalso. now apply (Qlt_not_le _ _ Hlt).
  - apply Qle_bool_false in Hth. split; [|split].
    + intros [Hge _]. exfalso. now apply (Qlt_not_le _ _ Hth).
    + intros _. split; reflexivity.
    + intros _. reflexivity.
Qed.

(** ** Which frames are scored *)

Lemma length_concat_full (n : nat) (frames : list (list Byte.byte)) :
  List.Forall (fun f => length f = n) frames ->
  length (concat frames) = (n * length frames)%nat.
Proof.
  induction 1 as [|f frames Hf _ IH]; cbn [concat length]; [lia|].
  rewrite length_app, IH, Hf. lia.
Qed.

(** A byte stream is its complete frames followed by a partial one, and
    the reads of a blocking reader follow that shape. *)
Lemma stream_shape (bs : list Byte.byte) :
  exists tail,
    bs = concat (full_frames bs) ++ tail /\
    (length tail < chunk_bytes)%nat /\
    List.Forall (fun f => length f = chunk_bytes) (full_frames bs) /\
    reads_of bs = map Ok (full_frames bs)
                  ++ match tail with [] => [] | _ => [Ok tail] end.
Proof.
  destruct (split_frames chunk_bytes chunk_bytes_pos bs)
    as (frames & tail & Hbs & Hfull & Hlen).
  assert (Htail : (length tail < chunk_bytes)%nat).
  { rewrite Hlen. apply Nat.mod_upper_bound. pose proof chunk_bytes_pos. lia. }
  assert (Hff : full_frames bs = frames).
  { rewrite Hbs. now apply full_frames_concat. }
  exists tail. rewrite Hff. repeat split; try assumption.
  unfold reads_of. rewrite Hbs at 1.
  rewrite (chunks_concat chunk_bytes chunk_bytes_pos frames tail Hfull Htail).
  rewrite map_app. now destruct tail.
Qed.

Section ScoredFrames.

Context (sc : Scorer).
Variable name : string.

Lemma score_loop_frames_trace tail_reads :
  tail_reads = [] \/
  (exists tail, tail_reads = [Ok tail] /\ (length tail < chunk_bytes)%nat) ->
  forall frames m mx w scores,
    List.Forall (fun f => length f = chunk_bytes) frames ->
    frame_scores sc name m frames = Some scores ->
    let w' := snd (score_loop sc name (map Ok frames ++ tail_reads) (m, mx) w) in
    predicted (trace w') = predicted (trace w) ++ map (fun raw => normalize (int16_pairs raw)) frames /\
    reads_done (trace w') = (reads_done (trace w) + length frames + 1)%nat.
Proof.
  intros Htail. induction frames as [|f frames IH]; intros m mx w scores Hfull Hsc;
    cbv zeta.
  - cbn [map app length]. rewrite app_nil_r.
    destruct Htail as [->|(tail & -> & Hshort)]; cbn [score_loop].
    + cbn [snd log trace predicted reads_done]. split; [reflexivity | lia].
    + rewrite (proj2 (Nat.ltb_lt _ _) Hshort), orb_true_r.
      cbn [snd log trace predicted reads_done]. split; [reflexivity | lia].
  - inversion Hfull as [|? ? Hf Hrest]; subst.
    cbn [frame_scores] in Hsc.
    destruct (model_predict sc m (normalize (int16_pairs f))) as [[pred|e] m1] eqn:Hp;
      [|discriminate].
    destruct (frame_scores sc name m1 frames) as [scores'|] eqn:Hsc'; [|discriminate].
    cbn [map app score_loop]. rewrite (full_frame_enters f Hf).
    unfold bind. rewrite (score_frame_full sc name m mx f _ pred m1 Hf Hp).
    destruct (IH m1 (if Qltb mx (dict_get pred name 0)
                     then dict_get pred name 0 else mx)
                 (log (EvPredict (normalize (int16_pairs f)) (Ok pred))
                      (log (EvRead (length f)) w)) scores' Hrest Hsc') as [Hpr Hrd].
    rewrite Hpr, Hrd. cbn [log trace predicted reads_done length].
    rewrite <- app_assoc. split; [reflexivity | lia].
Qed.

Lemma listen_loop_frames_trace tail_reads :
  tail_reads = [] \/
  (exists tail, tail_reads = [Ok tail] /\ (length tail < chunk_bytes)%nat) ->
  forall frames m lw w scores,
    List.Forall (fun f => length f = chunk_bytes) frames ->
    frame_scores sc name m frames = Some scores ->
    stdout_room w = None ->
    let r := listen_loop sc name (map Ok frames ++ tail_reads) (m, lw) w in
    (exists st, fst r = Ok st) /\
    predicted (trace (snd r)) = predicted (trace w) ++ map (fun raw => normalize (int16_pairs raw)) frames /\
    reads_done (trace (snd r)) = (reads_done (trace w) + length frames + 1)%nat.
Proof.
  intros Htail.
  induction frames as [|f frames IH]; intros m lw w scores Hfull Hsc Hroom; cbv zeta.
  - cbn [map app length]. rewrite app_nil_r.
    destruct Htail as [->|(tail & -> & Hshort)]; cbn [listen_loop].
    + cbn [fst snd log trace predicted reads_done]. repeat split; eauto; lia.
    + rewrite (proj2 (Nat.ltb_lt _ _) Hshort), orb_true_r.
      cbn [fst snd log trace predicted reads_done]. repeat split; eauto; lia.
  - inversion Hfull as [|? ? Hf Hrest]; subst.
    cbn [frame_scores] in Hsc.
    destruct (model_predict sc m (normalize (int16_pairs f))) as [[pred|e] m1] eqn:Hp;
      [|discriminate].
    destruct (frame_scores sc name m1 frames) as [scores'|] eqn:Hsc'; [|discriminate].
    cbn [map app listen_loop]. rewrite (full_frame_enters f Hf).
    unfold bind.
    rewrite (listen_frame_scored sc name m lw f _ pred m1 Hf Hp)
      by (cbn [log stdout_room]; rewrite Hroom; discriminate).
    wsimpl. rewrite Hroom. cbn [option_map].
    destruct (Qle_bool threshold (dict_get pred name 0));
      [destruct (Qle_bool debounce_seconds (clock w (ticks w) - lw))|];
      match goal with
      | |- context [listen_loop sc name _ (m1, ?lw') ?w'] =>
          assert (Hroom' : stdout_room w' = None)
            by (wsimpl; first [reflexivity | exact Hroom]);
          destruct (IH m1 lw' w' scores' Hrest Hsc' Hroom') as (Hok & Hpr & Hrd)
      end;
      (split; [exact Hok|]); rewrite Hpr, Hrd;
      cbn [emitted tick log trace predicted reads_done length];
      rewrite <- app_assoc; (split; [reflexivity | lia]).
Qed.

End ScoredFrames.

(** On a finite byte stream, with a model that scores every frame, the
    frames handed to the model are exactly the complete 2560-byte blocks
    of the stream, in order and converted; there are [length / 2560] of
    them, and one read more than that is made. This holds for the scoring
    loop, and for the listener loop when stdout never breaks, where the
    loop then ends normally. *)
Theorem complete_frames_scored (sc : Scorer) (name : string) (bs : list Byte.byte)
    (m : model sc) (scores : list Q) (start : Q) (w : world) :
  frame_scores sc name m (full_frames bs) = Some scores ->
  let frames := map (fun raw => normalize (int16_pairs raw)) (full_frames bs) in
  (exists tail, bs = concat (full_frames bs) ++ tail /\
                (length tail < 2560)%nat) /\
  List.Forall (fun f => length f = 2560%nat) (full_frames bs) /\
  length frames = (length bs / 2560)%nat /\
  (let w' := snd (score_loop sc name (reads_of bs) (m, start) w) in
   predicted (trace w') = predicted (trace w) ++ frames /\
   reads_done (trace w') = (reads_done (trace w) + length bs / 2560 + 1)%nat) /\
  (stdout_room w = None ->
   let r := listen_loop sc name (reads_of bs) (m, start) w in
   (exists st, fst r = Ok st) /\
   predicted (trace (snd r)) = predicted (trace w) ++ frames /\
   reads_done (trace (snd r)) = (reads_done (trace w) + length bs / 2560 + 1)%nat).
Proof.
  intros Hsc. cbv zeta.
  destruct (stream_shape bs) as (tail & Hbs & Htail & Hfull & Hreads).
  assert (Hcount : length (full_frames bs) = (length bs / chunk_bytes)%nat).
  { apply Nat.div_unique with (length tail); [exact Htail|].
    rewrite Hbs at 1. rewrite length_app.
    now rewrite (length_concat_full chunk_bytes _ Hfull). }
  assert (Hshape : match tail with [] => [] | _ => [Ok tail] end = []
                   \/ exists t, match tail with [] => [] | _ => [Ok tail] end = [Ok t]
                                /\ (length t < chunk_bytes)%nat).
  { destruct tail; [now left | right; eauto]. }
  change 2560%nat with chunk_bytes.
  split; [now exists tail|]. split; [exact Hfull|].
  rewrite length_map. split; [exact Hcount|].
  rewrite Hreads, <- Hcount. split.
  - now apply (score_loop_frames_trace sc name _ Hshape) with scores.
  - intros Hroom.
    now apply (listen_loop_frames_trace sc name _ Hshape) with scores.
Qed.

(** ** The conversion loses nothing *)

Lemma byte_to_N_inj (a b : Byte.byte) : Byte.to_N a = Byte.to_N b -> a = b.
Proof.
  intros H. pose proof (Byte.of_to_N a) as Ha. rewrite H, Byte.of_to_N in Ha.
  now injection Ha.
Qed.

Lemma int16_le_inj lo hi lo' hi' :
  int16_le lo hi = int16_le lo' hi' -> lo = lo' /\ hi = hi'.
Proof.
  unfold int16_le. intros H.
  pose proof (Byte.to_N_bounded lo). pose proof (Byte.to_N_bounded hi).
  pose proof (Byte.to_N_bounded lo'). pose proof (Byte.to_N_bounded hi').
  assert (Heq : Byte.to_N lo = Byte.to_N lo' /\ Byte.to_N hi = Byte.to_N hi').
  { destruct (Z.ltb_spec (Z.of_N (Byte.to_N lo) + 256 * Z.of_N (Byte.to_N hi)) 32768);
      destruct (Z.ltb_spec (Z.of_N (Byte.to_N lo') + 256 * Z.of_N (Byte.to_N hi')) 32768);
      lia. }
  destruct Heq as [Hlo Hhi]. split; now apply byte_to_N_inj.
Qed.

Lemma normalized_inj s s' :
  inject_Z s / 32768 = inject_Z s' / 32768 -> s = s'.
Proof.
  unfold Qdiv, Qmult, Qinv, inject_Z. cbn [Qnum Qden].
  intros H. injection H as H. lia.
Qed.

(** The conversion of a block is two's complement decoding and loses
    nothing: a sample is congruent modulo 2^16 to [lo + 256 * hi] and is
    negative exactly when the high byte is at least 0x80; different byte
    pairs give different samples, and two blocks of the same even length
    that convert to the same floats are the same block. *)
Theorem sample_decoding_lossless :
  (forall lo hi,
     (int16_le lo hi mod 65536
      = Z.of_N (Byte.to_N lo) + 256 * Z.of_N (Byte.to_N hi))%Z /\
     ((int16_le lo hi < 0)%Z <-> (128 <= Byte.to_N hi)%N)) /\
  (forall lo hi lo' hi',
     int16_le lo hi = int16_le lo' hi' -> lo = lo' /\ hi = hi') /\
  (forall r1 r2 : list Byte.byte,
     Nat.even (length r1) = true -> length r2 = length r1 ->
     normalize (int16_pairs r1) = normalize (int16_pairs r2) -> r1 = r2).
Proof.
  split; [|split].
  - intros lo hi. unfold int16_le.
    pose proof (Byte.to_N_bounded lo). pose proof (Byte.to_N_bounded hi).
    destruct (Z.ltb_spec (Z.of_N (Byte.to_N lo) + 256 * Z.of_N (Byte.to_N hi)) 32768).
    + split; [apply Z.mod_small; lia | lia].
    + split; [|lia].
      symmetry. apply Z.mod_unique_pos with (-1)%Z; lia.
  - apply int16_le_inj.
  - induction r1 as [|a|a b l IH] using pair_ind; intros r2 Hev Hlen Heq.
    + destruct r2; [reflexivity | discriminate].
    + discriminate.
    + destruct r2 as [|a' [|b' l']]; try discriminate.
      cbn [int16_pairs normalize map] in Heq.
      assert (Hhead : inject_Z (int16_le a b) / 32768
                      = inject_Z (int16_le a' b') / 32768) by congruence.
      assert (Htail : normalize (int16_pairs l) = normalize (int16_pairs l'))
        by (unfold normalize; congruence).
      apply normalized_inj, int16_le_inj in Hhead. destruct Hhead as [-> ->].
      f_equal. f_equal. apply IH.
      * exact Hev.
      * cbn [length] in Hlen. lia.
      * exact Htail.
Qed.

(** ** The reported maximum without any assumption on the scores *)

Section Floor.

Context (sc : Scorer).
Variable float_repr : Q -> string.

(** The scoring script on a finite byte stream whose frames the model
    scores: status 0 and the line [MAX] with the fold of the scores. *)
Lemma score_stream_run argv path m name ks (bs : list Byte.byte) scores w :
  model_path argv = Some path ->
  Model_new sc path = Ok m ->
  model_keys sc m = name :: ks ->
  stdout_room w <> Some O ->
  frame_scores sc name m (full_frames bs) = Some scores ->
  let r := wake_score_stdin sc float_repr argv (Ok tt) (reads_of bs) w in
  fst r = Exit 0 /\
  stdout_lines (trace (snd r))
  = stdout_lines (trace w) ++ ["MAX " +:+ float_repr (running_max 0 scores)].
Proof.
  intros Hpath Hload Hkeys Hroom Hsc. cbv zeta.
  destruct (stream_shape bs) as (tail & _ & Htail & Hfull & Hreads).
  destruct (score_loop_frames sc name (match tail with [] => [] | _ => [Ok tail] end))
    with (frames := full_frames bs) (m := m) (mx := 0) (w := w) (scores := scores)
    as (m' & wl & Hloop); [|assumption..|].
  { destruct tail; [now left | right; eauto]. }
  pose proof (score_loop_channels sc name (reads_of bs) (m, 0) w) as Hch.
  pose proof (score_loop_unflushed sc name (reads_of bs) (m, 0) w) as Hun.
  cbv zeta in Hch.
  rewrite (score_run sc float_repr argv path m name ks _ w Hpath Hload Hkeys).
  rewrite Hreads in *. rewrite Hloop in *. cbn [snd] in *.
  destruct Hch as (Hout & _ & Hroom').
  destruct (print_stdout_open ("MAX " +:+ float_repr (running_max 0 scores)) wl)
    as [room Hp]; [congruence|].
  rewrite Hp. cbn [ending].
  rewrite shutdown_clean by (cbn [emitted trace unflushed]; exact Hun).
  cbn [fst snd emitted trace stdout_lines]. now rewrite Hout.
Qed.

End Floor.

(** Whatever the scores are, negative ones included, the value on the
    [MAX] line is the larger of 0.0 and the scores: it is never negative,
    it is at least every score, and it is 0.0 or one of the scores. *)
Theorem reported_maximum_floor (sc : Scorer) (float_repr : Q -> string)
    (argv : list string) (path : string) (m : model sc) (name : string)
    (ks : list string) (bs : list Byte.byte) (scores : list Q) (w : world) :
  model_path argv = Some path ->
  Model_new sc path = Ok m ->
  model_keys sc m = name :: ks ->
  stdout_room w <> Some O ->
  frame_scores sc name m (full_frames bs) = Some scores ->
  exists v : Q,
    (let r := wake_score_stdin sc float_repr argv (Ok tt) (reads_of bs) w in
     fst r = Exit 0 /\
     stdout_lines (trace (snd r))
     = stdout_lines (trace w) ++ ["MAX " +:+ float_repr v]) /\
    0 <= v /\
    (forall s, List.In s scores -> s <= v) /\
    (v = 0 \/ List.In v scores).
Proof.
  intros Hpath Hload Hkeys Hroom Hsc. exists (running_max 0 scores).
  split; [now apply score_stream_run with path m name ks|].
  split; [apply running_max_ge|]. split.
  - intros s Hin. now apply running_max_upper.
  - apply running_max_attained.
Qed.

(** ** Sample runs for the further properties *)

Lemma empty_model_path_witness :
  ["wake_listener.py"; ""]%string !! 1%nat = Some ""%string /\
  fst (wake_listener (scripted None []) ["wake_listener.py"; ""]%string (Ok tt)
         (reads_of silence) (fresh_world (steady_clock 100 2))) = Exit 1.
Proof.
  split; [reflexivity|].
  destruct (empty_model_path (scripted None []) repr_tenths
              ["wake_listener.py"; ""]%string (Ok tt) (reads_of silence)
              (fresh_world (steady_clock 100 2)) eq_refl) as [[Hexit _] _].
  exact Hexit.
Defined.

Lemma import_failure_witness :
  let e := ImportError "No module named openwakeword" in
  model_path listener_argv = Some "hey_jeeves.onnx"%string /\
  is_Exception e = true /\
  fst (wake_listener (scripted None []) listener_argv (Raise e) (reads_of silence)
         (fresh_world (steady_clock 100 2))) = Exit 1 /\
  fst (wake_score_stdin (scripted None []) repr_tenths score_argv (Raise e)
         (reads_of silence) (fresh_world (steady_clock 100 2))) = Crash e.
Proof.
  cbv zeta. split; [reflexivity|]. split; [reflexivity|].
  destruct (import_failure (scripted None []) repr_tenths listener_argv
              "hey_jeeves.onnx" (ImportError "No module named openwakeword")
              (reads_of silence) (fresh_world (steady_clock 100 2))
              eq_refl eq_refl) as (Hl & _ & Hs).
  split; [now rewrite (Hl eq_refl) | now rewrite (Hs score_argv)].
Defined.

Lemma empty_model_keys_witness :
  model_keys keyless tt = [] /\
  wake_score_stdin keyless repr_tenths score_argv (Ok tt) (reads_of silence)
    (fresh_world (steady_clock 100 2))
  = (Crash (IndexError "list index out of range"), fresh_world (steady_clock 100 2)).
Proof.
  split; [reflexivity|].
  exact (proj1 (empty_model_keys keyless repr_tenths score_argv "hey_jeeves.onnx" tt
                  (reads_of silence) (fresh_world (steady_clock 100 2))
                  eq_refl eq_refl eq_refl)).
Defined.

Lemma complete_frames_scored_witness :
  let sc := scripted None [says (3 # 5); says (1 # 5)] in
  let bs := silence ++ silence ++ half_frame in
  let w := fresh_world (steady_clock 100 2) in
  frame_scores sc "hey_jeeves" [says (3 # 5); says (1 # 5)] (full_frames bs)
  = Some [3 # 5; 1 # 5] /\
  reads_done (trace (snd (score_loop sc "hey_jeeves" (reads_of bs)
                            ([says (3 # 5); says (1 # 5)], 0) w)))
  = (reads_done (trace w) + length bs / 2560 + 1)%nat.
Proof.
  cbv zeta.
  assert (Hsc : frame_scores (scripted None [says (3 # 5); says (1 # 5)]) "hey_jeeves"
                  [says (3 # 5); says (1 # 5)]
                  (full_frames (silence ++ silence ++ half_frame))
                = Some [3 # 5; 1 # 5]) by (vm_compute; reflexivity).
  split; [exact Hsc|].
  destruct (complete_frames_scored (scripted None [says (3 # 5); says (1 # 5)])
              "hey_jeeves" (silence ++ silence ++ half_frame)
              [says (3 # 5); says (1 # 5)] [3 # 5; 1 # 5] 0
              (fresh_world (steady_clock 100 2)) Hsc)
    as (_ & _ & _ & [_ Hreads] & _).
  exact Hreads.
Defined.

Lemma one_wake_per_detection_witness :
  let sc := scripted None [says (3 # 5); says (4 # 5)] in
  let w := fresh_world (steady_clock 100 2) in
  let tr := trace (snd (wake_listener sc listener_argv (Ok tt)
                          (reads_of (silence ++ silence)) w)) in
  trace w = [] /\
  (length (stdout_lines tr) <= reaching "hey_jeeves" tr)%nat.
Proof.
  cbv zeta. split; [reflexivity|].
  apply (one_wake_per_detection (scripted None [says (3 # 5); says (4 # 5)])
           listener_argv "hey_jeeves.onnx" [says (3 # 5); says (4 # 5)]
           (reads_of (silence ++ silence)) (fresh_world (steady_clock 100 2))
           eq_refl eq_refl eq_refl).
Defined.

Lemma wake_decision_witness :
  let sc := scripted None [says (3 # 5)] in
  let w := fresh_world (steady_clock 100 2) in
  length silence = 2560%nat /\
  model_predict sc [says (3 # 5)] (normalize (int16_pairs silence))
  = (Ok (<["hey_jeeves"%string := 3 # 5]> ∅), []) /\
  (1 # 2 <= dict_get (<["hey_jeeves"%string := 3 # 5]> ∅) "hey_jeeves" 0 /\
   5 # 2 <= clock w (ticks w) - 0) /\
  fst (listen_frame sc "hey_jeeves" ([says (3 # 5)], 0) silence w)
  = Ok ([], clock w 1%nat).
Proof.
  cbv zeta.
  assert (Hlen : length silence = 2560%nat) by reflexivity.
  assert (Hgo : 1 # 2 <= dict_get (<["hey_jeeves"%string := 3 # 5]> ∅) "hey_jeeves" 0 /\
                5 # 2 <= clock (fresh_world (steady_clock 100 2))
                           (ticks (fresh_world (steady_clock 100 2))) - 0).
  { split; apply Qle_bool_iff; vm_compute; reflexivity. }
  split; [exact Hlen|]. split; [reflexivity|]. split; [exact Hgo|].
  destruct (wake_decision (scripted None [says (3 # 5)]) "hey_jeeves"
              [says (3 # 5)] 0 silence (fresh_world (steady_clock 100 2))
              (<["hey_jeeves"%string := 3 # 5]> ∅) [] Hlen eq_refl
              ltac:(discriminate) (or_introl eq_refl)) as [Hwake _].
  exact (proj1 (Hwake Hgo)).
Defined.


Lemma sample_decoding_lossless_witness :
  int16_le x00 x80 = int16_le x00 x80 /\
  (int16_le x00 x80 mod 65536 = 32768)%Z.
Proof.
  split; [reflexivity|].
  exact (proj1 (proj1 sample_decoding_lossless x00 x80)).
Defined.

Lemma reported_maximum_floor_witness :
  let sc := scripted None [says (-1 # 2); says (-1 # 4)] in
  let bs := silence ++ silence in
  let w := fresh_world (steady_clock 100 2) in
  frame_scores sc "hey_jeeves" [says (-1 # 2); says (-1 # 4)] (full_frames bs)
  = Some [-1 # 2; -1 # 4] /\
  exists v,
    stdout_lines (trace (snd (wake_score_stdin sc repr_tenths score_argv (Ok tt)
                                (reads_of bs) w)))
    = ["MAX " +:+ repr_tenths v] /\ 0 <= v.
Proof.
  cbv zeta.
  assert (Hsc : frame_scores (scripted None [says (-1 # 2); says (-1 # 4)]) "hey_jeeves"
                  [says (-1 # 2); says (-1 # 4)] (full_frames (silence ++ silence))
                = Some [-1 # 2; -1 # 4]) by (vm_compute; reflexivity).
  split; [exact Hsc|].
  destruct (reported_maximum_floor (scripted None [says (-1 # 2); says (-1 # 4)])
              repr_tenths score_argv "hey_jeeves.onnx"
              [says (-1 # 2); says (-1 # 4)] "hey_jeeves" []
              (silence ++ silence) [-1 # 2; -1 # 4]
              (fresh_world (steady_clock 100 2)) eq_refl eq_refl eq_refl
              ltac:(discriminate) Hsc)
    as (v & [_ Hout] & Hpos & _).
  exists v. split; [exact Hout | exact Hpos].
Defined.
